(** * micrograd: the scalar reverse-mode autodiff engine

    A shallow embedding of [micrograd/engine.py] (class [Value]) and of
    [Module.zero_grad] from [micrograd/nn.py].

    Python objects are mutable and compared by identity, so a [Value] lives
    in a store (an arena of records) and is referred to by its address; the
    closures bound to [_backward] are defunctionalised into a tagged variant
    that records the captured variables [self], [other] and [out].

    Numbers are exact rationals: Python's [==] is [Qeq], rounding, overflow
    and the non-finite floats are outside the model.  The exponent of [**]
    is a plain number, written as an [int] or as a [float]; the power is
    computed when the exponent is an integer, the only exponents whose power
    is again rational.  What Python raises on exact inputs is modelled: the
    assertion of [__pow__], and [ZeroDivisionError] for zero raised to a
    negative power.  The native [**] also raises [OverflowError] when its
    result leaves the range of the floats: what is stated about the result
    of a power is stated within [in_float_range]. *)

From Stdlib Require Import QArith Qabs Qminmax Qpower Qfield Lia.
From stdpp Require Import base decidable option list gmap sets.

(** ** Data model *)

Abbreviation addr := nat.

(** The body of a [_backward] closure together with its captured variables. *)
Inductive closure : Type :=
| Noop                                         (* lambda: None *)
| AddBackward (self other out : addr)          (* __add__._backward *)
| MulBackward (self other out : addr)          (* __mul__._backward *)
| PowBackward (self : addr) (other : Z) (out : addr)  (* __pow__._backward *)
| ReluBackward (self out : addr).              (* relu._backward *)

Record Value : Type := MkValue {
  data : Q;
  grad : Q;
  _backward : closure;
  _prev : gset addr
}.

Abbreviation heap := (list Value).

Definition with_grad (g : Q) (v : Value) : Value :=
  MkValue (data v) g (_backward v) (_prev v).

Definition with_backward (c : closure) (v : Value) : Value :=
  MkValue (data v) (grad v) c (_prev v).

(** What a call can raise.  [Stuck] is not a Python exception: it marks a
    run that left the model (an address without an object, or a traversal
    that exhausted its recursion budget). *)
Inductive exn : Type :=
| AssertionError
| ZeroDivisionError
| Stuck.

Inductive outcome (A : Type) : Type :=
| Ret (a : A)
| Raise (e : exn).
Arguments Ret {A} a.
Arguments Raise {A} e.

(** State and exceptions: the store survives a raise, as in Python. *)
Definition M (A : Type) : Type := heap → outcome A * heap.

Definition ret {A} (a : A) : M A := λ h, (Ret a, h).
Definition raise {A} (e : exn) : M A := λ h, (Raise e, h).
Definition bind {A B} (m : M A) (k : A → M B) : M B :=
  λ h, match m h with
       | (Ret a, h') => k a h'
       | (Raise e, h') => (Raise e, h')
       end.

Notation "x <- m ;; k" := (bind m (λ x, k))
  (at level 100, m at next level, right associativity).
Notation "m ;; k" := (bind m (λ _, k))
  (at level 100, right associativity).

Definition load (a : addr) : M Value :=
  λ h, match h !! a with
       | Some v => (Ret v, h)
       | None => (Raise Stuck, h)
       end.

Definition store_grad (a : addr) (g : Q) : M unit :=
  λ h, (Ret tt, alter (with_grad g) a h).

Definition store_backward (a : addr) (c : closure) : M unit :=
  λ h, (Ret tt, alter (with_backward c) a h).

(** ** Construction *)

(** [Value.__init__]: a fresh object with [grad = 0.0], the no-op closure
    and [_prev = set(_children)]. *)
Definition __init__ (d : Q) (_children : list addr) : M addr :=
  λ h, (Ret (length h), h ++ [MkValue d 0 Noop (list_to_set _children)]).

(** An argument typed [Union[Value, float]]. *)
Inductive operand : Type :=
| Num (q : Q)
| Ref (a : addr).

(** [other if isinstance(other, Value) else Value(other)] *)
Definition as_Value (other : operand) : M addr :=
  match other with
  | Ref a => ret a
  | Num q => __init__ q []
  end.

(** The argument of [__pow__]: a plain number, written as an [int] or as a
    [float], or a [Value]. *)
Inductive exponent : Type :=
| IntExp (k : Z)
| FloatExp (q : Q)
| NodeExp (a : addr).

(** The integer that a float is, when it is one: [2.0] is the exponent [2]. *)
Definition integral (q : Q) : option Z :=
  if (Qden (Qred q) =? 1)%positive then Some (Qnum (Qred q)) else None.

(** Python's [x ** k] on exact numbers.  The [OverflowError] that the
    native operation raises beyond the range of the floats is outside the
    model (see [in_float_range]). *)
Definition py_pow (x : Q) (k : Z) : M Q :=
  if (k <? 0)%Z && Qeq_bool x 0 then raise ZeroDivisionError
  else ret (x ^ k)%Q.

(** ** The operation catalog *)

Definition __add__ (self : addr) (other : operand) : M addr :=
  other <- as_Value other ;;
  s <- load self ;;
  o <- load other ;;
  out <- __init__ (data s + data o)%Q [self; other] ;;
  store_backward out (AddBackward self other out) ;;
  ret out.

Definition __mul__ (self : addr) (other : operand) : M addr :=
  other <- as_Value other ;;
  s <- load self ;;
  o <- load other ;;
  out <- __init__ (data s * data o)%Q [self; other] ;;
  store_backward out (MulBackward self other out) ;;
  ret out.

Definition __neg__ (self : addr) : M addr :=
  __mul__ self (Num (-1)).

(** The assertion comes first.  A float exponent that is an integer gives
    the power and the rule of that integer; for any other float the power
    is no rational number, and the run leaves the model. *)
Definition __pow__ (self : addr) (other : exponent) : M addr :=
  match other with
  | NodeExp _ => raise AssertionError
  | IntExp k =>
      s <- load self ;;
      d <- py_pow (data s) k ;;
      out <- __init__ d [self] ;;
      store_backward out (PowBackward self k out) ;;
      ret out
  | FloatExp q =>
      match integral q with
      | Some k =>
          s <- load self ;;
          d <- py_pow (data s) k ;;
          out <- __init__ d [self] ;;
          store_backward out (PowBackward self k out) ;;
          ret out
      | None => raise Stuck
      end
  end.

(** [self + (-other)]: the negation is [Value.__neg__] on a node and the
    number's own on a plain number. *)
Definition __sub__ (self : addr) (other : operand) : M addr :=
  match other with
  | Ref b => n <- __neg__ b ;; __add__ self (Ref n)
  | Num q => __add__ self (Num (- q))
  end.

(** [self * other ** -1]: [**] binds tighter and runs first. *)
Definition __truediv__ (self : addr) (other : operand) : M addr :=
  match other with
  | Ref b => p <- __pow__ b (IntExp (-1)) ;; __mul__ self (Ref p)
  | Num q => d <- py_pow q (-1) ;; __mul__ self (Num d)
  end.

Definition relu (self : addr) : M addr :=
  s <- load self ;;
  out <- __init__ (if Qlt_le_dec (data s) 0 then 0 else data s)%Q [self] ;;
  store_backward out (ReluBackward self out) ;;
  ret out.

(** ** Propagation *)

(** [a.grad += rhs] *)
Definition grad_iadd (a : addr) (rhs : M Q) : M unit :=
  v <- load a ;;
  x <- rhs ;;
  store_grad a (grad v + x)%Q.

(** Calling a closure. *)
Definition call (c : closure) : M unit :=
  match c with
  | Noop => ret tt
  | AddBackward self other out =>
      grad_iadd self (o <- load out ;; ret (grad o * 1)%Q) ;;
      grad_iadd other (o <- load out ;; ret (grad o * 1)%Q)
  | MulBackward self other out =>
      grad_iadd self
        (o <- load out ;; t <- load other ;; ret (grad o * data t)%Q) ;;
      grad_iadd other
        (o <- load out ;; s <- load self ;; ret (grad o * data s)%Q)
  | PowBackward self other out =>
      grad_iadd self
        (o <- load out ;;
         s <- load self ;;
         p <- py_pow (data s) (other - 1) ;;
         ret (grad o * (inject_Z other * p))%Q)
  | ReluBackward self out =>
      grad_iadd self
        (o <- load out ;;
         ret (grad o * (if Qlt_le_dec 0 (data o) then 1 else 0))%Q)
  end.

(** [v._backward()] *)
Definition call_backward (v : addr) : M unit :=
  nd <- load v ;; call (_backward nd).

(** [for v in vs: v._backward()], returning also the nodes whose rule was
    invoked, in order. *)
Fixpoint propagate (vs : list addr) (h : heap)
  : list addr * (outcome unit * heap) :=
  match vs with
  | [] => ([], (Ret tt, h))
  | v :: vs' =>
      match call_backward v h with
      | (Ret _, h') =>
          let '(called, r) := propagate vs' h' in (v :: called, r)
      | (Raise e, h') => ([v], (Raise e, h'))
      end
  end.


(** ** Traversal *)

Record topo_state : Type := MkTopo {
  visited : gset addr;
  topo : list addr
}.

Fixpoint for_each {A S : Type} (f : A → S → option S) (l : list A) (s : S)
  : option S :=
  match l with
  | [] => Some s
  | x :: l' =>
      match f x s with
      | Some s' => for_each f l' s'
      | None => None
      end
  end.

Section Engine.

(** The order in which Python iterates over the set [_prev] of a node is
    not specified: [iter v s] is the enumeration of the set [s] held by the
    node [v], and the results below hold for every enumeration. *)
Variable iter : addr → gset addr → list addr.

(** The local function [build_topo] of [backward]; [fuel] bounds the depth
    of the recursion. *)
Fixpoint build_topo (fuel : nat) (h : heap) (v : addr) (st : topo_state)
  : option topo_state :=
  match fuel with
  | O => None
  | S fuel' =>
      if decide (v ∈ visited st) then Some st
      else
        match h !! v with
        | None => None
        | Some nd =>
            match for_each (build_topo fuel' h) (iter v (_prev nd))
                    (MkTopo ({[v]} ∪ visited st) (topo st)) with
            | Some st' => Some (MkTopo (visited st') (topo st' ++ [v]))
            | None => None
            end
        end
  end.

(** The list [topo] after [build_topo(self)].  The calls in progress are
    on distinct nodes, so a budget above the size of the store is never
    exhausted; the recursion limit of the interpreter is not modelled. *)
Definition topo_order (self : addr) (h : heap) : option (list addr) :=
  topo <$> build_topo (S (length h)) h self (MkTopo ∅ []).

(** [backward], with the invoked rules. *)
Definition backward_trace (self : addr) (h : heap)
  : list addr * (outcome unit * heap) :=
  match topo_order self h with
  | None => ([], (Raise Stuck, h))
  | Some tp => propagate (reverse tp) (alter (with_grad 1) self h)
  end.

Definition backward (self : addr) : M unit :=
  λ h, snd (backward_trace self h).

End Engine.

(** One enumeration of a set, to run the model on concrete graphs. *)
Definition sorted_iter (v : addr) (s : gset addr) : list addr := elements s.

(** The store after [Value(v)] for each [v] of a list. *)
Definition leaves (vs : list Q) : heap :=
  map (λ d, MkValue d 0 Noop ∅) vs.

(** [x = Value(2); y = Value(3); z = x * y; w = z + x] *)
Definition diamond : heap :=
  leaves [2%Q; 3%Q] ++
  [MkValue 6 0 (MulBackward 0 1 2) (list_to_set [0; 1]);
   MkValue 8 0 (AddBackward 2 0 3) (list_to_set [2; 0])].

(** [x = Value(0); y = x ** 0] *)
Definition pow_zero : heap :=
  leaves [0%Q] ++ [MkValue 1 0 (PowBackward 0 0 1) (list_to_set [0])].

(** ** Reading the store *)

Definition data_at (h : heap) (a : addr) : Q := from_option data 0%Q (h !! a).
Definition grad_at (h : heap) (a : addr) : Q := from_option grad 0%Q (h !! a).
Definition prev_at (h : heap) (a : addr) : gset addr :=
  from_option _prev ∅ (h !! a).
Definition backward_at (h : heap) (a : addr) : closure :=
  from_option _backward Noop (h !! a).

(** The nodes a closure writes to, and the node it reads [grad] from. *)
Definition operands (c : closure) : list addr :=
  match c with
  | Noop => []
  | AddBackward self other _ | MulBackward self other _ => [self; other]
  | PowBackward self _ _ | ReluBackward self _ => [self]
  end.

Definition closure_out (c : closure) : option addr :=
  match c with
  | Noop => None
  | AddBackward _ _ out | MulBackward _ _ out
  | PowBackward _ _ out | ReluBackward _ out => Some out
  end.

(** ** Well-formed stores

    What every store built through the operations satisfies: the parents of
    a node were allocated before it (so the parent relation is acyclic), and
    a closure writes to parents of its own node and reads the gradient of its
    own node. *)
Definition node_ok (i : addr) (v : Value) : Prop :=
  (∀ p, p ∈ _prev v → p < i) ∧
  (∀ p, p ∈ operands (_backward v) → p ∈ _prev v) ∧
  (∀ o, closure_out (_backward v) = Some o → o = i).

Definition wf (h : heap) : Prop :=
  ∀ i v, h !! i = Some v → node_ok i v.

(** [x] is reachable from [v] through parent links. *)
Inductive reachable (h : heap) : addr → addr → Prop :=
| reach_self v : reachable h v v
| reach_parent v p x :
    p ∈ prev_at h v → reachable h p x → reachable h v x.

(** A node without parents, as [Value(data)] builds it. *)
Definition is_leaf (h : heap) (a : addr) : Prop :=
  a < length h ∧ prev_at h a = ∅.

(** [p] occurs at an earlier position than [x] in [l]. *)
Definition before (l : list addr) (p x : addr) : Prop :=
  ∃ i j, i < j ∧ l !! i = Some p ∧ l !! j = Some x.

(** A dependency order: no repetition, and parents first. *)
Definition topo_ok (h : heap) (l : list addr) : Prop :=
  NoDup l ∧ ∀ x p, x ∈ l → p ∈ prev_at h x → before l p x.

(** The state of a traversal in which every node that is marked but not
    yet recorded has an address of at least [bound]. *)
Definition topo_inv (h : heap) (bound : addr) (st : topo_state) : Prop :=
  topo_ok h (topo st) ∧
  (∀ x, x ∈ topo st → x ∈ visited st) ∧
  (∀ x, x ∈ visited st → x < bound → x ∈ topo st).

(** [st'] is [st] after recording the nodes [new], all of them marked. *)
Definition extends (h : heap) (st st' : topo_state) (new : list addr) : Prop :=
  topo st' = topo st ++ new ∧
  (∀ x, x ∈ visited st' ↔ x ∈ visited st ∨ x ∈ new) ∧
  topo_ok h (topo st').

(** Two stores with the same graph: only gradients may differ. *)
Definition same_graph (h h' : heap) : Prop :=
  length h' = length h ∧
  ∀ a, data_at h' a = data_at h a ∧ prev_at h' a = prev_at h a ∧
       backward_at h' a = backward_at h a.

(** The factor by which the rule [c] weighs its node's gradient when adding
    it into the gradient of [x]: the table of local derivatives. *)
Definition local_weight (h : heap) (c : closure) (x : addr) : Q :=
  match c with
  | Noop => 0
  | AddBackward self other _ =>
      (if decide (x = self) then 1 else 0) +
      (if decide (x = other) then 1 else 0)
  | MulBackward self other _ =>
      (if decide (x = self) then data_at h other else 0) +
      (if decide (x = other) then data_at h self else 0)
  | PowBackward self k _ =>
      if decide (x = self) then inject_Z k * data_at h self ^ (k - 1) else 0
  | ReluBackward self out =>
      if decide (x = self)
      then (if Qlt_le_dec 0 (data_at h out) then 1 else 0) else 0
  end%Q.





(** A rule that raises on exact numbers: the power rule at base zero with
    exponent below 1. *)
Definition raising (h : heap) (c : closure) : Prop :=
  match c with
  | PowBackward self k _ => (k < 1)%Z ∧ (data_at h self == 0)%Q
  | _ => False
  end.

(** ** The reflected operations

    Python calls these when the left operand of the operator is not a
    [Value]. *)



(** [return other - self].  With a [Value] on the left this is
    [Value.__sub__].  With a plain number on the left the number's own
    subtraction does not know [Value], and Python hands the operation to
    [self.__rsub__(other)], the very call being run: every re-entry uses one
    unit of [depth], the recursion budget, and the run that finds none left
    is [Stuck]. *)
Fixpoint __rsub__ (depth : nat) (self : addr) (other : operand) : M addr :=
  match other with
  | Ref b => __sub__ b (Ref self)
  | Num q =>
      match depth with
      | O => raise Stuck
      | S depth' => __rsub__ depth' self (Num q)
      end
  end.


(** ** The network layer ([nn.py])

    [random.uniform(-1, 1)] is a sequence [rng] of numbers, of which the
    call number [k] returns [rng k]; an input [x] is a list of nodes or plain
    numbers. *)

Module Neuron.

Record t : Type := Mk {
  w : list addr;
  b : addr;
  nonlin : bool
}.

(** [[Value(data=random.uniform(-1, 1)) for _ in range(nin)]] *)
Fixpoint init_weights (rng : nat → Q) (k nin : nat) : M (list addr) :=
  match nin with
  | O => ret []
  | S nin' =>
      v <- __init__ (rng k) [] ;;
      vs <- init_weights rng (S k) nin' ;;
      ret (v :: vs)
  end.

Definition __init__ (rng : nat → Q) (k nin : nat) (nonlin : bool) : M t :=
  w <- init_weights rng k nin ;;
  b <- __init__ 0 [] ;;
  ret (Mk w b nonlin).

(** [sum((wi * xi for wi, xi in zip(self.w, x)), self.b)]: the generator is
    consumed one product at a time, each added to the running sum. *)
Fixpoint sum_products (ws : list addr) (xs : list operand) (acc : addr)
  : M addr :=
  match ws, xs with
  | wi :: ws', xi :: xs' =>
      item <- __mul__ wi xi ;;
      acc' <- __add__ acc (Ref item) ;;
      sum_products ws' xs' acc'
  | _, _ => ret acc
  end.

Definition __call__ (n : t) (x : list operand) : M addr :=
  act <- sum_products (w n) x (b n) ;;
  if nonlin n then relu act else ret act.

Definition parameters (n : t) : list addr := w n ++ [b n].

End Neuron.

Module Layer.

Record t : Type := Mk {
  neurons : list Neuron.t
}.

(** [[Neuron(nin, **kwargs) for _ in range(nout)]]; each neuron draws [nin]
    numbers. *)
Fixpoint init_neurons (rng : nat → Q) (k nin nout : nat) (nonlin : bool)
  : M (list Neuron.t) :=
  match nout with
  | O => ret []
  | S nout' =>
      n <- Neuron.__init__ rng k nin nonlin ;;
      ns <- init_neurons rng (k + nin) nin nout' nonlin ;;
      ret (n :: ns)
  end.

Definition __init__ (rng : nat → Q) (k nin nout : nat) (nonlin : bool)
  : M t :=
  ns <- init_neurons rng k nin nout nonlin ;;
  ret (Mk ns).

(** [[n(x) for n in self.neurons]] *)
Fixpoint call_neurons (ns : list Neuron.t) (x : list operand)
  : M (list addr) :=
  match ns with
  | [] => ret []
  | n :: ns' =>
      o <- Neuron.__call__ n x ;;
      os <- call_neurons ns' x ;;
      ret (o :: os)
  end.

Definition __call__ (l : t) (x : list operand) : M (list addr) :=
  call_neurons (neurons l) x.

(** [[p for n in self.neurons for p in n.parameters()]] *)
Definition parameters (l : t) : list addr :=
  concat (map Neuron.parameters (neurons l)).

End Layer.

Module MLP.

Record t : Type := Mk {
  layers : list Layer.t
}.

(** [[Layer(sz[i], sz[i + 1], nonlin=i != len(nouts) - 1) for i in ...]],
    over the indices [idx]; [n] is [len(nouts)].  A layer draws
    [sz[i] * sz[i + 1]] numbers. *)
Fixpoint init_layers (rng : nat → Q) (k : nat) (sz : list nat) (n : nat)
    (idx : list nat) : M (list Layer.t) :=
  match idx with
  | [] => ret []
  | i :: idx' =>
      l <- Layer.__init__ rng k (nth i sz 0) (nth (i + 1) sz 0)
             (negb (i =? n - 1)) ;;
      ls <- init_layers rng (k + nth i sz 0 * nth (i + 1) sz 0) sz n idx' ;;
      ret (l :: ls)
  end.

(** [sz = [nin] + nouts], and a layer for each [i in range(len(nouts))]. *)
Definition __init__ (rng : nat → Q) (k nin : nat) (nouts : list nat) : M t :=
  ls <- init_layers rng k (nin :: nouts) (length nouts)
          (seq 0 (length nouts)) ;;
  ret (Mk ls).

(** [for layer in self.layers: x = layer(x)] *)
Fixpoint call_layers (ls : list Layer.t) (x : list operand)
  : M (list operand) :=
  match ls with
  | [] => ret x
  | l :: ls' =>
      y <- Layer.__call__ l x ;;
      call_layers ls' (map Ref y)
  end.

Definition __call__ (m : t) (x : list operand) : M (list operand) :=
  call_layers (layers m) x.

(** [[p for layer in self.layers for p in layer.parameters()]] *)
Definition parameters (m : t) : list addr :=
  concat (map Layer.parameters (layers m)).

End MLP.

(** ** Notions for the further properties *)



(** The sum of [f v] over the nodes [v] of a list. *)
Definition sumQ (f : addr → Q) (l : list addr) : Q :=
  foldr (λ v acc, f v + acc)%Q 0%Q l.

(** An order of invocation in which no rule writes to the node of a rule
    that has already run, or to its own node. *)
Fixpoint pass_order (h : heap) (l : list addr) : Prop :=
  match l with
  | [] => True
  | v :: l' =>
      (∀ u, u ∈ v :: l' → v ∉ operands (backward_at h u)) ∧ pass_order h l'
  end.






(** The shape of a network of sizes [nin :: nouts]: for each layer, the
    number of weights and the non-linearity of each of its neurons; every
    layer but the last is non-linear. *)
Fixpoint layer_shapes (nin : nat) (nouts : list nat)
  : list (list (nat * bool)) :=
  match nouts with
  | [] => []
  | nout :: rest =>
      replicate nout (nin, negb (bool_decide (rest = []))) ::
      layer_shapes nout rest
  end.

Definition shape_of (ls : list Layer.t) : list (list (nat * bool)) :=
  map (λ l, map (λ n, (length (Neuron.w n), Neuron.nonlin n))
              (Layer.neurons l)) ls.

(** The number of parameters of the layers of sizes [sz]. *)
Fixpoint count_parameters (sz : list nat) : nat :=
  match sz with
  | nin :: ((nout :: _) as sz') => nout * S nin + count_parameters sz'
  | _ => 0
  end.

(** The numbers a new neuron, a new layer and a new network store in their
    parameters, in the order of creation: [nin] draws and the bias [0.0] for
    each neuron. *)
Definition neuron_data (rng : nat → Q) (k nin : nat) : list Q :=
  map rng (seq k nin) ++ [0%Q].

Fixpoint layer_data (rng : nat → Q) (k nin nout : nat) : list Q :=
  match nout with
  | O => []
  | S nout' => neuron_data rng k nin ++ layer_data rng (k + nin) nin nout'
  end.

Fixpoint mlp_data (rng : nat → Q) (k nin : nat) (nouts : list nat) : list Q :=
  match nouts with
  | [] => []
  | nout :: rest =>
      layer_data rng k nin nout ++ mlp_data rng (k + nin * nout) nout rest
  end.







(** ** Basic facts about the store *)

Lemma lookup_snoc_new (h : heap) (v : Value) : (h ++ [v]) !! length h = Some v.
Proof. by rewrite list_lookup_middle. Qed.

Lemma lookup_snoc_old (h : heap) (v : Value) (a : addr) :
  a < length h → (h ++ [v]) !! a = h !! a.
Proof. apply lookup_app_l. Qed.

Lemma alter_snoc_new (f : Value → Value) (h : heap) (v : Value) :
  alter f (length h) (h ++ [v]) = h ++ [f v].
Proof.
  rewrite alter_app_r_alt by lia.
  by replace (length h - length h) with 0 by lia.
Qed.

Lemma grad_at_alter_eq (h : heap) (a : addr) (g : Q) :
  a < length h → grad_at (alter (with_grad g) a h) a = g.
Proof.
  intros [v Hv]%lookup_lt_is_Some_2. unfold grad_at.
  by rewrite list_lookup_alter_eq, Hv.
Qed.

Lemma grad_at_alter_ne (h : heap) (a x : addr) (g : Q) :
  a ≠ x → grad_at (alter (with_grad g) a h) x = grad_at h x.
Proof. intros. unfold grad_at. by rewrite list_lookup_alter_ne. Qed.

Lemma same_graph_refl (h : heap) : same_graph h h.
Proof. by split. Qed.

Lemma same_graph_trans (h1 h2 h3 : heap) :
  same_graph h1 h2 → same_graph h2 h3 → same_graph h1 h3.
Proof.
  intros [Hl1 H1] [Hl2 H2]. split; [congruence|].
  intros a. destruct (H1 a) as (?&?&?), (H2 a) as (?&?&?).
  repeat split; congruence.
Qed.

Lemma same_graph_alter_grad (h : heap) (a : addr) (g : Q) :
  same_graph h (alter (with_grad g) a h).
Proof.
  split; [apply length_alter|].
  intros x. unfold data_at, prev_at, backward_at.
  destruct (decide (a = x)) as [->|].
  - destruct (h !! x) as [v|] eqn:Hv; by rewrite list_lookup_alter_eq, Hv.
  - by rewrite list_lookup_alter_ne.
Qed.

Lemma same_graph_lookup (h h' : heap) (a : addr) (v : Value) :
  same_graph h h' → h !! a = Some v →
  ∃ v', h' !! a = Some v' ∧ data v' = data v ∧ _prev v' = _prev v ∧
        _backward v' = _backward v.
Proof.
  intros [Hl Hs] Hv.
  destruct (lookup_lt_is_Some_2 h' a) as [v' Hv'].
  { rewrite Hl. by eapply lookup_lt_Some. }
  exists v'. split; [done|].
  destruct (Hs a) as (Hd & Hp & Hb).
  unfold data_at, prev_at, backward_at in Hd, Hp, Hb.
  by rewrite Hv, Hv' in Hd, Hp, Hb.
Qed.

Lemma same_graph_wf (h h' : heap) : same_graph h h' → wf h → wf h'.
Proof.
  intros Hs Hwf i v' Hv'.
  destruct (lookup_lt_is_Some_2 h i) as [v Hv].
  { rewrite <- (proj1 Hs). by eapply lookup_lt_Some. }
  destruct (same_graph_lookup _ _ _ _ Hs Hv) as (v'' & ? & Hd & Hp & Hb).
  simplify_eq. specialize (Hwf _ _ Hv). unfold node_ok in *.
  by rewrite Hp, Hb.
Qed.


Lemma wf_snoc (h : heap) (v : Value) :
  wf h → node_ok (length h) v → wf (h ++ [v]).
Proof.
  intros Hwf Hv i w Hw.
  apply lookup_snoc_Some in Hw as [[? ?]|[-> ->]]; [by apply Hwf|done].
Qed.

Lemma wf_prev_lt (h : heap) (v p : addr) :
  wf h → p ∈ prev_at h v → p < v.
Proof.
  intros Hwf. unfold prev_at. destruct (h !! v) as [nd|] eqn:Hv; simpl.
  - apply (Hwf _ _ Hv).
  - set_solver.
Qed.

Lemma wf_reachable_le (h : heap) (r x : addr) :
  wf h → reachable h r x → x ≤ r.
Proof.
  intros Hwf. induction 1 as [|v p x Hp _ IH]; [done|].
  apply (wf_prev_lt _ _ _ Hwf) in Hp. lia.
Qed.

Lemma reachable_trans (h : heap) (a b c : addr) :
  reachable h a b → reachable h b c → reachable h a c.
Proof.
  induction 1; [done|]. intros. eapply reach_parent; eauto.
Qed.

Lemma reachable_leaf (h : heap) (a x : addr) :
  prev_at h a = ∅ → reachable h a x → x = a.
Proof. intros Hp. inversion 1; subst; [done|]. set_solver. Qed.

(** ** The operations, run on a store *)

Lemma load_run (h : heap) (a : addr) (v : Value) :
  h !! a = Some v → load a h = (Ret v, h).
Proof. intros Hv. unfold load. by rewrite Hv. Qed.

Lemma load_valid (h : heap) (a : addr) :
  a < length h →
  ∃ v, h !! a = Some v ∧ data v = data_at h a ∧ grad v = grad_at h a ∧
       _prev v = prev_at h a ∧ _backward v = backward_at h a.
Proof.
  intros [v Hv]%lookup_lt_is_Some_2. exists v.
  unfold data_at, grad_at, prev_at, backward_at. by rewrite Hv.
Qed.

Lemma add_run (h : heap) (a b : addr) (va vb : Value) :
  h !! a = Some va → h !! b = Some vb →
  __add__ a (Ref b) h =
    (Ret (length h),
     h ++ [MkValue (data va + data vb) 0 (AddBackward a b (length h))
             (list_to_set [a; b])]).
Proof.
  intros Ha Hb. unfold __add__, as_Value, bind, ret.
  rewrite (load_run _ _ _ Ha), (load_run _ _ _ Hb).
  unfold __init__, store_backward. by rewrite alter_snoc_new.
Qed.

Lemma mul_run (h : heap) (a b : addr) (va vb : Value) :
  h !! a = Some va → h !! b = Some vb →
  __mul__ a (Ref b) h =
    (Ret (length h),
     h ++ [MkValue (data va * data vb) 0 (MulBackward a b (length h))
             (list_to_set [a; b])]).
Proof.
  intros Ha Hb. unfold __mul__, as_Value, bind, ret.
  rewrite (load_run _ _ _ Ha), (load_run _ _ _ Hb).
  unfold __init__, store_backward. by rewrite alter_snoc_new.
Qed.

Lemma mul_num_run (h : heap) (a : addr) (q : Q) (va : Value) :
  h !! a = Some va →
  __mul__ a (Num q) h =
    (Ret (length (h ++ [MkValue q 0 Noop ∅])),
     (h ++ [MkValue q 0 Noop ∅]) ++
     [MkValue (data va * q) 0
        (MulBackward a (length h) (length (h ++ [MkValue q 0 Noop ∅])))
        (list_to_set [a; length h])]).
Proof.
  intros Ha. pose proof (lookup_lt_Some _ _ _ Ha) as Hlt.
  change (__mul__ a (Num q) h)
    with (__mul__ a (Ref (length h)) (h ++ [MkValue q 0 Noop ∅])).
  apply (mul_run _ a (length h) va (MkValue q 0 Noop ∅));
    [by rewrite lookup_snoc_old|apply lookup_snoc_new].
Qed.

Lemma pow_run (h : heap) (a : addr) (k : Z) (va : Value) :
  h !! a = Some va → ((k <? 0)%Z && Qeq_bool (data va) 0) = false →
  __pow__ a (IntExp k) h =
    (Ret (length h),
     h ++ [MkValue (data va ^ k) 0 (PowBackward a k (length h))
             (list_to_set [a])]).
Proof.
  intros Ha Hk. unfold __pow__, py_pow, bind, ret.
  rewrite (load_run _ _ _ Ha), Hk. cbv beta iota.
  unfold __init__, store_backward. by rewrite alter_snoc_new.
Qed.

Lemma pow_zero_raises (h : heap) (a : addr) (k : Z) (va : Value) :
  h !! a = Some va → (k < 0)%Z → (data va == 0)%Q →
  __pow__ a (IntExp k) h = (Raise ZeroDivisionError, h).
Proof.
  intros Ha Hk H0. unfold __pow__, bind, py_pow.
  rewrite (load_run _ _ _ Ha).
  apply Z.ltb_lt in Hk. apply Qeq_bool_iff in H0. by rewrite Hk, H0.
Qed.


Lemma relu_run (h : heap) (a : addr) (va : Value) :
  h !! a = Some va →
  relu a h =
    (Ret (length h),
     h ++ [MkValue (if Qlt_le_dec (data va) 0 then 0 else data va) 0
             (ReluBackward a (length h)) (list_to_set [a])]).
Proof.
  intros Ha. unfold relu, bind, ret. rewrite (load_run _ _ _ Ha).
  unfold __init__, store_backward. by rewrite alter_snoc_new.
Qed.




(** ** Nodes built by the operations are well formed *)

Lemma node_ok_leaf (i : addr) (d g : Q) : node_ok i (MkValue d g Noop ∅).
Proof. repeat split; simpl; intros; set_solver. Qed.

Lemma node_ok_binary (i a b : addr) (d g : Q) (c : closure) :
  a < i → b < i → operands c = [a; b] → closure_out c = Some i →
  node_ok i (MkValue d g c (list_to_set [a; b])).
Proof.
  intros ?? Hops Hout. repeat split; simpl.
  - intros p Hp. set_unfold in Hp. destruct Hp as [?|[?|?]]; by subst.
  - intros p. rewrite Hops. set_solver.
  - intros o. rewrite Hout. congruence.
Qed.

Lemma node_ok_unary (i a : addr) (d g : Q) (c : closure) :
  a < i → operands c = [a] → closure_out c = Some i →
  node_ok i (MkValue d g c (list_to_set [a])).
Proof.
  intros ? Hops Hout. repeat split; simpl.
  - intros p Hp. set_unfold in Hp. destruct Hp as [?|?]; by subst.
  - intros p. rewrite Hops. set_solver.
  - intros o. rewrite Hout. congruence.
Qed.

(** ** What a propagate rule does to the store *)

Lemma grad_at_alter (h : heap) (a x : addr) (g : Q) :
  a < length h →
  grad_at (alter (with_grad g) a h) x = if decide (x = a) then g else grad_at h x.
Proof.
  intros Ha. destruct (decide (x = a)) as [->|].
  - by apply grad_at_alter_eq.
  - by apply grad_at_alter_ne.
Qed.

Lemma data_at_alter (h : heap) (a x : addr) (g : Q) :
  data_at (alter (with_grad g) a h) x = data_at h x.
Proof. apply (same_graph_alter_grad h a g). Qed.

Lemma bind_load {A} (a : addr) (k : Value → M A) (h : heap) :
  a < length h →
  (v <- load a ;; k v) h =
    k (MkValue (data_at h a) (grad_at h a) (backward_at h a) (prev_at h a)) h.
Proof.
  intros [v Hv]%lookup_lt_is_Some_2.
  unfold bind, load, data_at, grad_at, backward_at, prev_at.
  rewrite Hv. by destruct v.
Qed.

Lemma grad_iadd_run (a : addr) (rhs : M Q) (q : Q) (h : heap) :
  a < length h → rhs h = (Ret q, h) →
  grad_iadd a rhs h = (Ret tt, alter (with_grad (grad_at h a + q)) a h).
Proof.
  intros Ha Hrhs. unfold grad_iadd. rewrite bind_load by done.
  unfold bind. by rewrite Hrhs.
Qed.

Lemma py_pow_ok (x : Q) (k : Z) (h : heap) :
  ¬ ((k < 0)%Z ∧ (x == 0)%Q) → py_pow x k h = (Ret (x ^ k)%Q, h).
Proof.
  intros Hno. unfold py_pow.
  destruct (k <? 0)%Z eqn:Hk, (Qeq_bool x 0) eqn:Hx; try done.
  exfalso. apply Hno. split; [by apply Z.ltb_lt|by apply Qeq_bool_iff].
Qed.

Lemma py_pow_zero (x : Q) (k : Z) (h : heap) :
  (k < 0)%Z → (x == 0)%Q → py_pow x k h = (Raise ZeroDivisionError, h).
Proof.
  intros Hk Hx. unfold py_pow.
  apply Z.ltb_lt in Hk. apply Qeq_bool_iff in Hx. by rewrite Hk, Hx.
Qed.

(** Whatever a rule does, it leaves the graph alone and writes only to the
    gradients of its operands. *)
Lemma call_frame (c : closure) (h h' : heap) (o : outcome unit) :
  call c h = (o, h') →
  same_graph h h' ∧ ∀ x, x ∉ operands c → grad_at h' x = grad_at h x.
Proof.
  destruct c; unfold call, grad_iadd, py_pow, bind, load, store_grad, ret, raise;
    intros Hc; repeat case_match; simplify_eq; simpl;
    (split;
     [ eauto using same_graph_refl, same_graph_alter_grad, same_graph_trans
     | intros x Hx; rewrite ?grad_at_alter_ne by set_solver; done ]).
Qed.

Lemma call_backward_frame (h h' : heap) (v : addr) (o : outcome unit) :
  call_backward v h = (o, h') →
  same_graph h h' ∧
  ∀ x, x ∉ operands (backward_at h v) → grad_at h' x = grad_at h x.
Proof.
  unfold call_backward, bind, load, backward_at.
  destruct (h !! v) as [nd|]; simpl.
  - apply call_frame.
  - intros; simplify_eq. split; [apply same_graph_refl|done].
Qed.

(** A rule whose operands are older than its node [v] adds, into each
    gradient, the gradient of [v] weighted by the local derivative. *)
Lemma call_returns (h : heap) (c : closure) (v : addr) :
  (∀ p, p ∈ operands c → p < v) →
  (∀ o, closure_out c = Some o → o = v) →
  v < length h → ¬ raising h c →
  ∃ h', call c h = (Ret tt, h') ∧
    ∀ x, (grad_at h' x == grad_at h x + grad_at h v * local_weight h c x)%Q.
Proof.
  intros Hops Hout Hv Hsafe.
  destruct c as [|s t out|s t out|s k out|s out];
    cbn [call operands closure_out local_weight raising] in *.
  - exists h. split; [done|]. intros x. ring.
  - assert (s < v ∧ t < v) as [Hs Ht] by (split; apply Hops; set_solver).
    rewrite (Hout out eq_refl). clear Hout Hops.
    unfold bind at 1.
    erewrite grad_iadd_run; [|lia|by rewrite bind_load by lia].
    erewrite grad_iadd_run;
      [|rewrite length_alter; lia|by rewrite bind_load by (rewrite length_alter; lia)].
    eexists; split; [done|]. intros x. simpl.
    rewrite !grad_at_alter by (rewrite ?length_alter; lia).
    repeat case_decide; subst; try lia; ring.
  - assert (s < v ∧ t < v) as [Hs Ht] by (split; apply Hops; set_solver).
    rewrite (Hout out eq_refl). clear Hout Hops.
    unfold bind at 1.
    erewrite grad_iadd_run;
      [|lia|by rewrite !bind_load by lia].
    erewrite grad_iadd_run;
      [|rewrite length_alter; lia
       |by rewrite !bind_load by (rewrite length_alter; lia)].
    eexists; split; [done|]. intros x. simpl.
    rewrite !grad_at_alter, !data_at_alter by (rewrite ?length_alter; lia).
    repeat case_decide; subst; try lia; ring.
  - assert (s < v) as Hs by (apply Hops; set_solver).
    rewrite (Hout out eq_refl). clear Hout Hops.
    erewrite grad_iadd_run; [|lia|].
    2:{ rewrite !bind_load by lia. simpl. unfold bind.
        rewrite py_pow_ok; [done|]. intros [??]. apply Hsafe. split; [lia|done]. }
    eexists; split; [done|]. intros x.
    rewrite !grad_at_alter by lia.
    repeat case_decide; subst; try lia; ring.
  - assert (s < v) as Hs by (apply Hops; set_solver).
    rewrite (Hout out eq_refl). clear Hout Hops.
    erewrite grad_iadd_run; [|lia|by rewrite !bind_load by lia].
    eexists; split; [done|]. intros x. simpl.
    rewrite !grad_at_alter by lia.
    repeat case_decide; subst; try lia; ring.
Qed.

Lemma call_raises (h : heap) (c : closure) (v : addr) :
  (∀ p, p ∈ operands c → p < v) →
  (∀ o, closure_out c = Some o → o = v) →
  v < length h → raising h c →
  call c h = (Raise ZeroDivisionError, h).
Proof.
  intros Hops Hout Hv Hr.
  destruct c as [|s t out|s t out|s k out|s out];
    cbn [call operands closure_out raising] in *; try done.
  destruct Hr as [Hk H0].
  assert (s < v) as Hs by (apply Hops; set_solver).
  rewrite (Hout out eq_refl).
  unfold grad_iadd. rewrite bind_load by lia. unfold bind at 1.
  rewrite !bind_load by lia. cbn [data grad].
  unfold bind. rewrite py_pow_zero; [done|lia|done].
Qed.

Lemma raising_dec (h : heap) (c : closure) : {raising h c} + {¬ raising h c}.
Proof.
  destruct c as [| | |s k out|]; simpl; try (right; tauto).
  destruct (Z_lt_dec k 1), (Qeq_dec (data_at h s) 0); tauto.
Qed.

Lemma same_graph_raising (h h' : heap) (c : closure) :
  same_graph h h' → raising h' c ↔ raising h c.
Proof.
  intros [_ Hs]. destruct c as [| | |s k out|]; simpl; try done.
  by rewrite (proj1 (Hs s)).
Qed.

Lemma wf_backward_at (h : heap) (v : addr) :
  wf h → v < length h →
  (∀ p, p ∈ operands (backward_at h v) → p ∈ prev_at h v) ∧
  (∀ p, p ∈ operands (backward_at h v) → p < v) ∧
  (∀ o, closure_out (backward_at h v) = Some o → o = v).
Proof.
  intros Hwf [nd Hnd]%lookup_lt_is_Some_2.
  destruct (Hwf _ _ Hnd) as (Hlt & Hops & Hout).
  unfold backward_at, prev_at. rewrite Hnd. simpl. naive_solver.
Qed.

Lemma call_backward_unfold (h : heap) (v : addr) :
  v < length h → call_backward v h = call (backward_at h v) h.
Proof. intros Hv. unfold call_backward. by rewrite bind_load. Qed.

Lemma call_backward_returns (h : heap) (v : addr) :
  wf h → v < length h → ¬ raising h (backward_at h v) →
  ∃ h', call_backward v h = (Ret tt, h') ∧ same_graph h h' ∧
    ∀ x, (grad_at h' x ==
          grad_at h x + grad_at h v * local_weight h (backward_at h v) x)%Q.
Proof.
  intros Hwf Hv Hsafe.
  destruct (wf_backward_at _ _ Hwf Hv) as (_ & Hops & Hout).
  destruct (call_returns h _ v Hops Hout Hv Hsafe) as (h' & Hc & Hg).
  exists h'. rewrite call_backward_unfold by done.
  split; [done|]. split; [|done]. by apply call_frame in Hc as [? _].
Qed.

Lemma call_backward_raises (h : heap) (v : addr) :
  wf h → v < length h → raising h (backward_at h v) →
  call_backward v h = (Raise ZeroDivisionError, h).
Proof.
  intros Hwf Hv Hr.
  destruct (wf_backward_at _ _ Hwf Hv) as (_ & Hops & Hout).
  rewrite call_backward_unfold by done. by eapply call_raises.
Qed.

(** ** The reverse pass *)

Lemma propagate_frame (l : list addr) :
  ∀ (h h' : heap) (called : list addr) (o : outcome unit),
  propagate l h = (called, (o, h')) →
  same_graph h h' ∧
  ∀ x, (∀ v, v ∈ l → x ∉ operands (backward_at h v)) →
       grad_at h' x = grad_at h x.
Proof.
  induction l as [|v l IH]; intros h h' called o Hp; simpl in Hp.
  - simplify_eq. split; [apply same_graph_refl|done].
  - destruct (call_backward v h) as [[[]|e] h1] eqn:Hc.
    + destruct (propagate l h1) as [called1 [o1 h2]] eqn:Hp1. simplify_eq.
      apply call_backward_frame in Hc as [Hs1 Hg1].
      apply IH in Hp1 as [Hs2 Hg2].
      split; [by eapply same_graph_trans|].
      intros x Hx. rewrite Hg2, Hg1; [done|apply Hx; left|].
      intros w Hw. rewrite (proj2 (proj2 (proj2 Hs1 w))). apply Hx. by right.
    + simplify_eq. apply call_backward_frame in Hc as [Hs1 Hg1].
      split; [done|]. intros x Hx. apply Hg1, Hx. left.
Qed.

Lemma propagate_called (l : list addr) :
  ∀ (h h' : heap) (called : list addr) (o : outcome unit),
  propagate l h = (called, (o, h')) →
  called `prefix_of` l ∧ (o = Ret tt → called = l).
Proof.
  induction l as [|v l IH]; intros h h' called o Hp; simpl in Hp.
  - by simplify_eq.
  - destruct (call_backward v h) as [[[]|e] h1] eqn:Hc.
    + destruct (propagate l h1) as [called1 [o1 h2]] eqn:Hp1. simplify_eq.
      apply IH in Hp1 as [Hpre Heq].
      split; [by apply prefix_cons|]. intros ->. by rewrite Heq.
    + simplify_eq. split; [|done]. apply prefix_cons, prefix_nil.
Qed.

Lemma propagate_raised (l : list addr) :
  ∀ (h h' : heap) (called : list addr) (e : exn),
  propagate l h = (called, (Raise e, h')) →
  ∃ pre v h1, called = pre ++ [v] ∧ call_backward v h1 = (Raise e, h').
Proof.
  induction l as [|v l IH]; intros h h' called e Hp; simpl in Hp.
  - by simplify_eq.
  - destruct (call_backward v h) as [[[]|e1] h1] eqn:Hc.
    + destruct (propagate l h1) as [called1 [o1 h2]] eqn:Hp1. simplify_eq.
      destruct (IH _ _ _ _ Hp1) as (pre & w & h3 & -> & Hw).
      by exists (v :: pre), w, h3.
    + simplify_eq. by exists [], v, h.
Qed.

Lemma propagate_not_stuck (l : list addr) :
  ∀ (h h' : heap) (called : list addr) (o : outcome unit),
  wf h → (∀ v, v ∈ l → v < length h) →
  propagate l h = (called, (o, h')) →
  o = Ret tt ∨ o = Raise ZeroDivisionError.
Proof.
  induction l as [|v l IH]; intros h h' called o Hwf Hl Hp; simpl in Hp.
  - simplify_eq. by left.
  - assert (v < length h) as Hv by (apply Hl; left).
    destruct (raising_dec h (backward_at h v)) as [Hr|Hr].
    + rewrite call_backward_raises in Hp by done. simplify_eq. by right.
    + destruct (call_backward_returns h v Hwf Hv Hr) as (h1 & Hc & Hs & _).
      rewrite Hc in Hp.
      destruct (propagate l h1) as [called1 [o1 h2]] eqn:Hp1. simplify_eq.
      eapply IH; [by eapply same_graph_wf| |done].
      intros w Hw. rewrite (proj1 Hs). apply Hl. by right.
Qed.

Lemma propagate_returns (l : list addr) :
  ∀ h : heap,
  wf h → (∀ v, v ∈ l → v < length h) →
  (∀ v, v ∈ l → ¬ raising h (backward_at h v)) →
  ∃ h', propagate l h = (l, (Ret tt, h')).
Proof.
  induction l as [|v l IH]; intros h Hwf Hl Hsafe; simpl.
  - by eexists.
  - assert (v < length h) as Hv by (apply Hl; left).
    destruct (call_backward_returns h v Hwf Hv) as (h1 & Hc & Hs & _).
    { apply Hsafe. left. }
    rewrite Hc.
    destruct (IH h1) as (h2 & Hp).
    + by eapply same_graph_wf.
    + intros w Hw. rewrite (proj1 Hs). apply Hl. by right.
    + intros w Hw. rewrite (proj2 (proj2 (proj2 Hs w))).
      rewrite same_graph_raising by done. apply Hsafe. by right.
    + rewrite Hp. by eexists.
Qed.



(** ** Dependency orders *)

Lemma before_elem_of (l : list addr) (p x : addr) :
  before l p x → p ∈ l ∧ x ∈ l.
Proof.
  intros (i & j & _ & Hi & Hj). split; by eapply list_elem_of_lookup_2.
Qed.

Lemma before_app_l (l l' : list addr) (p x : addr) :
  before l p x → before (l ++ l') p x.
Proof.
  intros (i & j & Hij & Hi & Hj). exists i, j.
  split; [done|]. split; by apply lookup_app_l_Some.
Qed.

Lemma before_snoc (l : list addr) (p v : addr) :
  p ∈ l → before (l ++ [v]) p v.
Proof.
  intros [i Hi]%list_elem_of_lookup_1. exists i, (length l).
  split; [by eapply lookup_lt_Some|].
  split; [by apply lookup_app_l_Some|by rewrite list_lookup_middle].
Qed.

Lemma topo_ok_nil (h : heap) : topo_ok h [].
Proof. split; [constructor|]. intros x p Hx. by apply elem_of_nil in Hx. Qed.

Lemma topo_ok_snoc (h : heap) (l : list addr) (v : addr) :
  topo_ok h l → v ∉ l → (∀ p, p ∈ prev_at h v → p ∈ l) →
  topo_ok h (l ++ [v]).
Proof.
  intros [Hnd Hbe] Hv Hpar. split.
  - apply NoDup_app. split; [done|]. split; [|apply NoDup_singleton].
    intros x Hx Hx'. apply list_elem_of_singleton in Hx'. by subst.
  - intros x p Hx Hp. apply elem_of_app in Hx as [Hx|Hx].
    + by apply before_app_l, Hbe.
    + apply list_elem_of_singleton in Hx. subst. by apply before_snoc, Hpar.
Qed.

Lemma topo_ok_closed (h : heap) (l : list addr) (r x : addr) :
  topo_ok h l → r ∈ l → reachable h r x → x ∈ l.
Proof.
  intros [_ Hbe] Hr Hreach. induction Hreach as [|v p x Hp _ IH]; [done|].
  apply IH. by destruct (before_elem_of _ _ _ (Hbe _ _ Hr Hp)).
Qed.

Lemma topo_inv_mono (h : heap) (b b' : addr) (st : topo_state) :
  b' ≤ b → topo_inv h b st → topo_inv h b' st.
Proof.
  intros Hb (Hok & Hsub & Hlow). split; [done|]. split; [done|].
  intros x Hx Hlt. apply Hlow; [done|lia].
Qed.

Lemma extends_inv (h : heap) (b : addr) (st st' : topo_state) (new : list addr) :
  topo_inv h b st → extends h st st' new → topo_inv h b st'.
Proof.
  intros (_ & Hsub & Hlow) (Htopo & Hvis & Hok). split; [done|].
  split; intros x; rewrite Htopo, Hvis, elem_of_app; intuition auto.
Qed.

Lemma extends_refl (h : heap) (st : topo_state) :
  topo_ok h (topo st) → extends h st st [].
Proof.
  intros Hok. split; [by rewrite app_nil_r|]. split; [|done].
  intros x. rewrite elem_of_nil. tauto.
Qed.

Lemma extends_trans (h : heap) (st1 st2 st3 : topo_state) (n1 n2 : list addr) :
  extends h st1 st2 n1 → extends h st2 st3 n2 → extends h st1 st3 (n1 ++ n2).
Proof.
  intros (Ht1 & Hv1 & _) (Ht2 & Hv2 & Hok).
  split; [by rewrite Ht2, Ht1, app_assoc|]. split; [|done].
  intros x. rewrite Hv2, Hv1, elem_of_app. tauto.
Qed.

(** ** The traversal records a dependency order *)

Section Traversal.

Variable iter : addr → gset addr → list addr.
Hypothesis iter_spec : ∀ v s x, x ∈ iter v s ↔ x ∈ s.
Variable h : heap.
Hypothesis Hwf : wf h.

(** The loop over the parents of [v0], given what a call does. *)
Lemma visit_children (f : addr → topo_state → option topo_state) (v0 : addr) :
  (∀ c st, c < v0 → topo_inv h (S c) st →
     ∃ st' new, f c st = Some st' ∧ extends h st st' new ∧ c ∈ topo st' ∧
                ∀ x, x ∈ new → reachable h c x) →
  ∀ cs st, (∀ c, c ∈ cs → c < v0) → topo_inv h v0 st →
  ∃ st' new, for_each f cs st = Some st' ∧ extends h st st' new ∧
             (∀ c, c ∈ cs → c ∈ topo st') ∧
             (∀ x, x ∈ new → ∃ c, c ∈ cs ∧ reachable h c x).
Proof.
  intros Hf. induction cs as [|c cs IH]; intros st Hcs Hinv; simpl.
  - exists st, []. split; [done|]. split; [apply extends_refl, Hinv|].
    split; intros x Hx; by apply elem_of_nil in Hx.
  - assert (c < v0) as Hc by (apply Hcs; left).
    destruct (Hf c st) as (st1 & n1 & Hrun & Hext1 & Hin & Hreach1);
      [done|by eapply topo_inv_mono|].
    rewrite Hrun.
    destruct (IH st1) as (st2 & n2 & Hfe & Hext2 & Hall & Hreach2).
    { intros c' Hc'. apply Hcs. by right. }
    { by eapply extends_inv. }
    exists st2, (n1 ++ n2). split; [done|].
    split; [by eapply extends_trans|]. split.
    + intros c' Hc'. apply elem_of_cons in Hc' as [->|Hc']; [|by apply Hall].
      rewrite (proj1 Hext2). apply elem_of_app. by left.
    + intros x Hx. apply elem_of_app in Hx as [Hx|Hx].
      * exists c. split; [left|by apply Hreach1].
      * destruct (Hreach2 x Hx) as (c' & ? & ?). exists c'. split; [by right|done].
Qed.

(** A call of [build_topo] on a node older than the budget records the
    node and what it reaches, parents first. *)
Lemma build_topo_spec (fuel : nat) :
  ∀ v st, v < length h → v < fuel → topo_inv h (S v) st →
  ∃ st' new, build_topo iter fuel h v st = Some st' ∧ extends h st st' new ∧
     v ∈ topo st' ∧ (∀ x, x ∈ new → reachable h v x) ∧
     (v ∉ visited st → ∃ new', new = new' ++ [v]).
Proof.
  induction fuel as [|fuel IH]; intros v st Hv Hfuel Hinv; [lia|]. simpl.
  destruct (decide (v ∈ visited st)) as [Hvis|Hvis].
  - exists st, []. split; [done|]. split; [apply extends_refl, Hinv|].
    split; [apply Hinv; [done|lia]|]. split; [|done].
    intros x Hx. by apply elem_of_nil in Hx.
  - destruct (lookup_lt_is_Some_2 h v Hv) as [nd Hnd]. rewrite Hnd.
    assert (prev_at h v = _prev nd) as Hprev by (unfold prev_at; by rewrite Hnd).
    destruct (visit_children (build_topo iter fuel h) v) with
      (cs := iter v (_prev nd)) (st := MkTopo ({[v]} ∪ visited st) (topo st))
      as (st2 & new & Hfe & Hext & Hall & Hreach).
    + intros c st' Hc Hinv'.
      destruct (IH c st') as (st'' & new' & H1 & H2 & H3 & H4 & _);
        [lia|lia|done|].
      by exists st'', new'.
    + intros c Hc. apply iter_spec in Hc. by apply (Hwf _ _ Hnd).
    + destruct Hinv as (Hok & Hsub & Hlow). split; [done|]. simpl. split.
      * intros x Hx. apply elem_of_union. right. by apply Hsub.
      * intros x Hx Hlt. apply elem_of_union in Hx as [Hx|Hx].
        -- apply elem_of_singleton in Hx. lia.
        -- apply Hlow; [done|lia].
    + rewrite Hfe. destruct Hext as (Htopo & Hvis2 & Hok2). simpl in Htopo, Hvis2.
      exists (MkTopo (visited st2) (topo st2 ++ [v])), (new ++ [v]).
      assert (∀ x, x ∈ new → reachable h v x) as Hreachv.
      { intros x Hx. destruct (Hreach x Hx) as (c & Hc & Hcx).
        eapply reach_parent; [|done]. rewrite Hprev. by apply iter_spec in Hc. }
      split; [done|]. split; [|split; [|split]]; simpl.
      * split; [simpl; by rewrite Htopo, app_assoc|]. split; simpl.
        -- intros x. rewrite Hvis2, elem_of_app, elem_of_union,
             elem_of_singleton, list_elem_of_singleton. tauto.
        -- apply topo_ok_snoc; [done| |].
           ++ rewrite Htopo, elem_of_app. intros [Hx|Hx].
              ** apply Hvis. by apply Hinv.
              ** destruct (Hreach v Hx) as (c & Hc & Hcv).
                 apply iter_spec in Hc. apply (Hwf _ _ Hnd) in Hc.
                 apply (wf_reachable_le _ _ _ Hwf) in Hcv. lia.
           ++ intros p Hp. apply Hall, iter_spec. by rewrite <- Hprev.
      * apply elem_of_app. right. by apply list_elem_of_singleton.
      * intros x Hx. apply elem_of_app in Hx as [Hx|Hx]; [by apply Hreachv|].
        apply list_elem_of_singleton in Hx. subst. constructor.
      * intros _. by exists new.
Qed.

(** [backward] records the nodes reachable from the root, each once,
    parents first and the root last. *)
Lemma topo_order_spec (r : addr) :
  r < length h →
  ∃ T, topo_order iter r h = Some (T ++ [r]) ∧ topo_ok h (T ++ [r]) ∧
       ∀ x, x ∈ T ++ [r] ↔ reachable h r x.
Proof.
  intros Hr. unfold topo_order.
  destruct (build_topo_spec (S (length h)) r (MkTopo ∅ []))
    as (st' & new & Hrun & (Htopo & _ & Hok) & Hin & Hreach & Hlast);
    [done|lia| |].
  { split; [apply topo_ok_nil|]. simpl. split.
    - intros x Hx. by apply elem_of_nil in Hx.
    - intros x Hx. by apply elem_of_empty in Hx. }
  destruct Hlast as [T ->]; [simpl; apply not_elem_of_empty|].
  simpl in Htopo. exists T. rewrite Hrun. simpl. rewrite Htopo.
  split; [done|]. rewrite <- Htopo. split; [done|].
  intros x. split.
  - rewrite Htopo. apply Hreach.
  - by apply topo_ok_closed.
Qed.

End Traversal.

(** ** Stores extended by a fresh node *)

Lemma data_at_snoc_old (h : heap) (v : Value) (a : addr) :
  a < length h → data_at (h ++ [v]) a = data_at h a.
Proof. intros. unfold data_at. by rewrite lookup_snoc_old. Qed.

Lemma grad_at_snoc_old (h : heap) (v : Value) (a : addr) :
  a < length h → grad_at (h ++ [v]) a = grad_at h a.
Proof. intros. unfold grad_at. by rewrite lookup_snoc_old. Qed.

Lemma prev_at_snoc_old (h : heap) (v : Value) (a : addr) :
  a < length h → prev_at (h ++ [v]) a = prev_at h a.
Proof. intros. unfold prev_at. by rewrite lookup_snoc_old. Qed.

Lemma backward_at_snoc_old (h : heap) (v : Value) (a : addr) :
  a < length h → backward_at (h ++ [v]) a = backward_at h a.
Proof. intros. unfold backward_at. by rewrite lookup_snoc_old. Qed.

Lemma data_at_snoc_new (h : heap) (v : Value) :
  data_at (h ++ [v]) (length h) = data v.
Proof. unfold data_at. by rewrite lookup_snoc_new. Qed.

Lemma grad_at_snoc_new (h : heap) (v : Value) :
  grad_at (h ++ [v]) (length h) = grad v.
Proof. unfold grad_at. by rewrite lookup_snoc_new. Qed.

Lemma prev_at_snoc_new (h : heap) (v : Value) :
  prev_at (h ++ [v]) (length h) = _prev v.
Proof. unfold prev_at. by rewrite lookup_snoc_new. Qed.

Lemma backward_at_snoc_new (h : heap) (v : Value) :
  backward_at (h ++ [v]) (length h) = _backward v.
Proof. unfold backward_at. by rewrite lookup_snoc_new. Qed.

Lemma reachable_inv (h : heap) (r x : addr) :
  reachable h r x → x = r ∨ ∃ p, p ∈ prev_at h r ∧ reachable h p x.
Proof. inversion 1; subst; [by left|right; eauto]. Qed.

(** From an old node only old nodes are reached, along old links. *)
Lemma reachable_snoc_old (h : heap) (v : Value) (r x : addr) :
  wf h → r < length h → reachable (h ++ [v]) r x → reachable h r x.
Proof.
  intros Hwf Hr Hreach. induction Hreach as [|w p x Hp _ IH]; [constructor|].
  rewrite prev_at_snoc_old in Hp by done.
  eapply reach_parent; [done|]. apply IH.
  apply (wf_prev_lt _ _ _ Hwf) in Hp. lia.
Qed.

Lemma wf_leaf_noop (h : heap) (a : addr) :
  wf h → is_leaf h a → backward_at h a = Noop.
Proof.
  intros Hwf [Ha Hp].
  destruct (wf_backward_at _ _ Hwf Ha) as (Hops & _ & _).
  rewrite Hp in Hops.
  assert (∀ p, p ∉ operands (backward_at h a)) as Hno.
  { intros p Hin. apply Hops in Hin. by apply elem_of_empty in Hin. }
  destruct (backward_at h a) as [|s t o|s t o|s k o|s o]; [done|..];
    exfalso; apply (Hno s); simpl; left.
Qed.

Lemma local_weight_same_graph (h h' : heap) (c : closure) (x : addr) :
  same_graph h h' → local_weight h' c x = local_weight h c x.
Proof.
  intros [_ Hs]. destruct c as [|s t o|s t o|s k o|s o]; simpl; try done.
  - by rewrite (proj1 (Hs s)), (proj1 (Hs t)).
  - by rewrite (proj1 (Hs s)).
  - by rewrite (proj1 (Hs o)).
Qed.



Lemma before_reverse (l : list addr) (p x : addr) :
  before l p x → before (reverse l) x p.
Proof.
  intros (i & j & Hij & Hi & Hj).
  pose proof (lookup_lt_Some _ _ _ Hi). pose proof (lookup_lt_Some _ _ _ Hj).
  exists (length l - S j), (length l - S i). split; [lia|].
  split; apply reverse_lookup_Some; (split; [|lia]).
  - by replace (length l - S (length l - S j)) with j by lia.
  - by replace (length l - S (length l - S i)) with i by lia.
Qed.

Lemma topo_order_invalid (iter : addr → gset addr → list addr)
    (h : heap) (r : addr) :
  length h ≤ r → topo_order iter r h = None.
Proof.
  intros Hr. unfold topo_order. simpl.
  rewrite decide_False by apply not_elem_of_empty.
  by rewrite (lookup_ge_None_2 h r Hr).
Qed.

Lemma NoDup_reverse_list (l : list addr) : NoDup l → NoDup (reverse l).
Proof. intros Hnd. by rewrite reverse_Permutation. Qed.

Lemma prev_pair_same (x : addr) : list_to_set [x; x] =@{gset addr} {[x]}.
Proof.
  apply set_eq. intros p.
  rewrite elem_of_list_to_set, !elem_of_cons, elem_of_nil, elem_of_singleton.
  tauto.
Qed.

Lemma prev_single (x : addr) : list_to_set [x] =@{gset addr} {[x]}.
Proof.
  apply set_eq. intros p.
  rewrite elem_of_list_to_set, !elem_of_cons, elem_of_nil, elem_of_singleton.
  tauto.
Qed.

Lemma prev_pair (a b p : addr) :
  p ∈ list_to_set (C:=gset addr) [a; b] ↔ p = a ∨ p = b.
Proof.
  rewrite elem_of_list_to_set, !elem_of_cons, elem_of_nil. tauto.
Qed.


Lemma sorted_iter_spec (v : addr) (s : gset addr) (x : addr) :
  x ∈ sorted_iter v s ↔ x ∈ s.
Proof. apply elem_of_elements. Qed.

Lemma leaf_safe (h : heap) (a v : addr) :
  wf h → is_leaf h a → reachable h a v → ¬ raising h (backward_at h v).
Proof.
  intros Hwf Hleaf Hv. apply (reachable_leaf _ _ _ (proj2 Hleaf)) in Hv.
  subst. rewrite (wf_leaf_noop _ _ Hwf Hleaf). tauto.
Qed.



Ltac len := rewrite ?length_app; simpl; lia.

Ltac heap_simpl :=
  repeat first
    [ rewrite data_at_snoc_new | rewrite grad_at_snoc_new
    | rewrite prev_at_snoc_new | rewrite backward_at_snoc_new
    | rewrite data_at_snoc_old by len | rewrite grad_at_snoc_old by len
    | rewrite prev_at_snoc_old by len | rewrite backward_at_snoc_old by len ].

(** ** The backward pass *)

Section Backward.

Variable iter : addr → gset addr → list addr.
Hypothesis iter_spec : ∀ v s x, x ∈ iter v s ↔ x ∈ s.

Lemma backward_unfold (h : heap) (r : addr) :
  wf h → r < length h →
  ∃ T, topo_order iter r h = Some (T ++ [r]) ∧ topo_ok h (T ++ [r]) ∧
       NoDup T ∧ (∀ x, x ∈ T ↔ x ≠ r ∧ reachable h r x) ∧
       backward_trace iter r h =
         propagate (r :: reverse T) (alter (with_grad 1) r h).
Proof.
  intros Hwf Hr.
  destruct (topo_order_spec iter iter_spec h Hwf r Hr) as (T & Ht & Hok & Hin).
  exists T. split; [done|]. split; [done|].
  destruct Hok as [Hnd Hbe].
  apply NoDup_app in Hnd as (HndT & Hdis & _).
  split; [done|]. split.
  - intros x. split.
    + intros Hx. split.
      * intros ->. apply (Hdis _ Hx). by apply list_elem_of_singleton.
      * apply Hin, elem_of_app. by left.
    + intros [Hne Hreach]. apply Hin, elem_of_app in Hreach as [?|Hx]; [done|].
      by apply list_elem_of_singleton in Hx.
  - unfold backward_trace. by rewrite Ht, reverse_snoc.
Qed.

Lemma backward_outcome (h h' : heap) (r : addr) (o : outcome unit) :
  wf h → r < length h → backward iter r h = (o, h') →
  o = Ret tt ∨ o = Raise ZeroDivisionError.
Proof.
  intros Hwf Hr Hb.
  destruct (backward_unfold h r Hwf Hr) as (T & _ & _ & _ & HT & Htr).
  unfold backward in Hb. rewrite Htr in Hb.
  destruct (propagate _ _) as [called [o1 h1]] eqn:Hp. simpl in Hb. simplify_eq.
  eapply propagate_not_stuck; [| |done].
  - eapply same_graph_wf; [apply same_graph_alter_grad|done].
  - intros v Hv. rewrite length_alter.
    apply elem_of_cons in Hv as [->|Hv]; [done|].
    apply elem_of_reverse, HT in Hv as [_ Hv].
    apply (wf_reachable_le _ _ _ Hwf) in Hv. lia.
Qed.

Lemma backward_returns (h : heap) (r : addr) :
  wf h → r < length h →
  (∀ v, reachable h r v → ¬ raising h (backward_at h v)) →
  ∃ h', backward_trace iter r h = (fst (backward_trace iter r h), (Ret tt, h')).
Proof.
  intros Hwf Hr Hsafe.
  destruct (backward_unfold h r Hwf Hr) as (T & _ & _ & _ & HT & Htr).
  pose proof (same_graph_alter_grad h r 1) as Hs.
  destruct (propagate_returns (r :: reverse T) (alter (with_grad 1) r h))
    as (h' & Hp).
  - by eapply same_graph_wf.
  - intros v Hv. rewrite length_alter.
    apply elem_of_cons in Hv as [->|Hv]; [done|].
    apply elem_of_reverse, HT in Hv as [_ Hv].
    apply (wf_reachable_le _ _ _ Hwf) in Hv. lia.
  - intros v Hv. rewrite (proj2 (proj2 (proj2 Hs v))).
    rewrite same_graph_raising by done. apply Hsafe.
    apply elem_of_cons in Hv as [->|Hv]; [constructor|].
    by apply elem_of_reverse, HT in Hv as [_ Hv].
  - exists h'. rewrite Htr, Hp. done.
Qed.

(** The first step of the pass: the rule of the root runs on the seed. *)
Lemma backward_root_step (h : heap) (r : addr) :
  wf h → r < length h → ¬ raising h (backward_at h r) →
  ∃ T h1, NoDup T ∧ (∀ x, x ∈ T ↔ x ≠ r ∧ reachable h r x) ∧
    same_graph h h1 ∧
    (∀ x, (grad_at h1 x ==
           (if decide (x = r) then 1 else grad_at h x) +
           1 * local_weight h (backward_at h r) x)%Q) ∧
    backward_trace iter r h =
      (let '(called, res) := propagate (reverse T) h1 in (r :: called, res)).
Proof.
  intros Hwf Hr Hsafe.
  destruct (backward_unfold h r Hwf Hr) as (T & _ & _ & Hnd & HT & Htr).
  pose proof (same_graph_alter_grad h r 1) as Hs.
  destruct (call_backward_returns (alter (with_grad 1) r h) r)
    as (h1 & Hc & Hs1 & Hg).
  - by eapply same_graph_wf.
  - by rewrite length_alter.
  - rewrite (proj2 (proj2 (proj2 Hs r))). by rewrite same_graph_raising.
  - exists T, h1. split; [done|]. split; [done|].
    split; [by eapply same_graph_trans|]. split.
    + intros x. rewrite Hg, (proj2 (proj2 (proj2 Hs r))).
      rewrite (local_weight_same_graph h) by done.
      rewrite !grad_at_alter by done.
      destruct (decide (r = r)); [reflexivity|done].
    + rewrite Htr. simpl. by rewrite Hc.
Qed.

(** The gradient of a node that only the root writes to. *)
Lemma backward_grad_operand (h h' : heap) (r x : addr) (o : outcome unit) :
  wf h → r < length h → ¬ raising h (backward_at h r) → x ≠ r →
  (∀ v, reachable h r v → v ≠ r → x ∉ prev_at h v) →
  backward iter r h = (o, h') →
  (grad_at h' x == grad_at h x + 1 * local_weight h (backward_at h r) x)%Q.
Proof.
  intros Hwf Hr Hsafe Hx Hown Hb.
  destruct (backward_root_step h r Hwf Hr Hsafe)
    as (T & h1 & _ & HT & Hs1 & Hg & Htr).
  unfold backward in Hb. rewrite Htr in Hb.
  destruct (propagate (reverse T) h1) as [called [o1 h2]] eqn:Hp.
  simpl in Hb. simplify_eq.
  apply propagate_frame in Hp as [_ Hfr].
  rewrite Hfr, Hg; [by rewrite decide_False by done|].
  intros v Hv Hin. apply elem_of_reverse, HT in Hv as [Hne Hreach].
  apply (Hown v Hreach Hne).
  rewrite (proj2 (proj2 (proj2 Hs1 v))) in Hin.
  apply (wf_backward_at h v Hwf); [|done].
  apply (wf_reachable_le _ _ _ Hwf) in Hreach. lia.
Qed.

Lemma wf_not_parent_below (h : heap) (x v : addr) :
  wf h → reachable h x v → x ∉ prev_at h v.
Proof.
  intros Hwf Hreach Hin.
  apply (wf_reachable_le _ _ _ Hwf) in Hreach.
  apply (wf_prev_lt _ _ _ Hwf) in Hin. lia.
Qed.


(** The pass from a node [nd] that was just built on top of [h]. *)
Lemma backward_fresh (h h2 : heap) (nd : Value) (x : addr) (o : outcome unit) :
  wf h → node_ok (length h) nd → ¬ raising (h ++ [nd]) (_backward nd) →
  x < length h →
  (∀ p v, p ∈ _prev nd → reachable h p v → x ∉ prev_at h v) →
  backward iter (length h) (h ++ [nd]) = (o, h2) →
  (o = Ret tt ∨ o = Raise ZeroDivisionError) ∧
  ((∀ p v, p ∈ _prev nd → reachable h p v → ¬ raising h (backward_at h v)) →
   o = Ret tt) ∧
  same_graph (h ++ [nd]) h2 ∧
  (grad_at h2 x ==
   grad_at h x + 1 * local_weight (h ++ [nd]) (_backward nd) x)%Q.
Proof.
  intros Hwf Hnd Hsafe Hx Hown Hb.
  assert (wf (h ++ [nd])) as Hwf1 by by apply wf_snoc.
  assert (length h < length (h ++ [nd])) as Hr by (rewrite length_app; simpl; lia).
  assert (∀ v, reachable (h ++ [nd]) (length h) v → v ≠ length h →
            ∃ p, p ∈ _prev nd ∧ reachable h p v) as Hold.
  { intros v Hv Hne. apply reachable_inv in Hv as [?|(p & Hp & Hv)]; [done|].
    rewrite prev_at_snoc_new in Hp. exists p. split; [done|].
    eapply reachable_snoc_old; [done| |done]. by apply Hnd. }
  split; [by eapply backward_outcome|]. split; [|split].
  - intros Hsafe'.
    destruct (backward_returns (h ++ [nd]) (length h) Hwf1 Hr)
      as (h' & Hret).
    + intros v Hv. destruct (decide (v = length h)) as [->|Hne].
      * by rewrite backward_at_snoc_new.
      * destruct (Hold v Hv Hne) as (p & Hp & Hpv).
        assert (v < length h) as Hlt.
        { apply (wf_reachable_le _ _ _ Hwf) in Hpv.
          apply (proj1 Hnd) in Hp. lia. }
        rewrite backward_at_snoc_old by done.
        intros Hrz. apply (Hsafe' p v Hp Hpv).
        destruct (wf_backward_at h v Hwf Hlt) as (_ & Hops & _).
        destruct (backward_at h v) as [| | |s k out|]; try done.
        simpl in *. destruct Hrz as [Hk Hz]. split; [done|].
        rewrite data_at_snoc_old in Hz; [done|].
        assert (s < v) by (apply Hops; left). lia.
    + unfold backward in Hb. rewrite Hret in Hb. simpl in Hb. by simplify_eq.
  - unfold backward in Hb.
    destruct (backward_trace iter (length h) (h ++ [nd])) as [called [o' h']] eqn:Htr.
    simpl in Hb. simplify_eq.
    destruct (backward_unfold (h ++ [nd]) (length h) Hwf1 Hr) as (T & _ & _ & _ & _ & Htr').
    rewrite Htr' in Htr. apply propagate_frame in Htr as [Hs _].
    eapply same_graph_trans; [apply same_graph_alter_grad|done].
  - rewrite (backward_grad_operand (h ++ [nd]) h2 (length h) x o);
      try done.
    + by rewrite grad_at_snoc_old, backward_at_snoc_new.
    + by rewrite backward_at_snoc_new.
    + lia.
    + intros v Hv Hne. destruct (Hold v Hv Hne) as (p & Hp & Hpv).
      rewrite prev_at_snoc_old; [by eapply Hown|].
      apply (wf_reachable_le _ _ _ Hwf) in Hpv.
      apply (proj1 Hnd) in Hp. lia.
Qed.

(** The pass changes gradients only, and only below the root. *)
Lemma backward_only_grads (h h' : heap) (r : addr) (o : outcome unit) :
  wf h → backward iter r h = (o, h') →
  same_graph h h' ∧ ∀ a, ¬ reachable h r a → grad_at h' a = grad_at h a.
Proof.
  intros Hwf Hrun.
  destruct (decide (r < length h)) as [Hr|Hr].
  - destruct (backward_unfold h r Hwf Hr) as (T & _ & _ & _ & HT & Htr).
    unfold backward in Hrun. rewrite Htr in Hrun.
    destruct (propagate _ _) as [called [o1 h1]] eqn:Hp.
    simpl in Hrun. simplify_eq.
    pose proof (same_graph_alter_grad h r 1) as Hs0.
    apply propagate_frame in Hp as [Hs Hfr].
    split; [by eapply same_graph_trans|].
    intros a Hna. rewrite Hfr.
    + apply grad_at_alter_ne. intros ->. apply Hna. constructor.
    + intros v Hv Hin. apply Hna.
      assert (reachable h r v) as Hreach.
      { apply elem_of_cons in Hv as [->|Hv]; [constructor|].
        by apply elem_of_reverse, HT in Hv as [_ ?]. }
      eapply reachable_trans; [done|].
      eapply reach_parent; [|constructor].
      rewrite (proj2 (proj2 (proj2 Hs0 v))) in Hin.
      apply (wf_backward_at h v Hwf); [|done].
      apply (wf_reachable_le _ _ _ Hwf) in Hreach. lia.
  - unfold backward, backward_trace in Hrun.
    rewrite topo_order_invalid in Hrun by lia. simpl in Hrun. simplify_eq.
    split; [apply same_graph_refl|done].
Qed.








End Backward.

(** * The claims *)


Section Claims.

Variable iter : addr → gset addr → list addr.
Hypothesis iter_spec : ∀ v s x, x ∈ iter v s ↔ x ∈ s.

(** C2.  For every leaf [x] whose gradient is 0, [y = x + x] has the single
    parent [x] (the set [_prev] holds it once), and [backward] from [y]
    returns with [x.grad == 2]: the rule of [y] adds into [x] twice. *)
Theorem add_self_gradient (h : heap) (x : addr) :
  wf h → is_leaf h x → (grad_at h x == 0)%Q →
  ∃ y h1 h2,
    __add__ x (Ref x) h = (Ret y, h1) ∧
    prev_at h1 y = {[x]} ∧ size (prev_at h1 y) = 1 ∧
    backward iter y h1 = (Ret tt, h2) ∧
    (grad_at h2 x == 2)%Q.
Proof.
  intros Hwf Hleaf H0. pose proof (proj1 Hleaf) as Hx.
  destruct (load_valid h x Hx) as (vx & Hvx & _).
  rewrite (add_run h x x vx vx) by done.
  set (nd := MkValue _ _ _ _).
  destruct (backward iter (length h) (h ++ [nd])) as [o h2] eqn:Hb.
  assert (_prev nd = {[x]}) as Hprev by apply prev_pair_same.
  assert (node_ok (length h) nd) as Hnd by by apply node_ok_binary.
  assert (¬ raising (h ++ [nd]) (_backward nd)) as Hsafe by (simpl; tauto).
  assert (∀ p v, p ∈ _prev nd → reachable h p v → x ∉ prev_at h v) as Hown.
  { intros p v Hp. rewrite Hprev in Hp. apply elem_of_singleton in Hp as ->.
    by apply wf_not_parent_below. }
  destruct (backward_fresh iter iter_spec h h2 nd x o Hwf Hnd Hsafe Hx Hown Hb)
    as (_ & Hret & _ & Hg).
  exists (length h), (h ++ [nd]), h2. split; [done|].
  rewrite prev_at_snoc_new, Hprev. split; [done|].
  split; [apply size_singleton|]. split.
  - rewrite Hb, Hret; [done|]. intros p v Hp. rewrite Hprev in Hp.
    apply elem_of_singleton in Hp as ->. by apply leaf_safe.
  - rewrite Hg, H0. simpl. rewrite decide_True by done. reflexivity.
Qed.

(** C8.  For every node [a], [relu] builds a node of value
    [max(0, a.value)]; with [a.grad] initially 0, [backward] from it leaves
    [a.grad == 0] when [a.value] is negative and [a.grad == 1] when it is
    positive.  The pass returns unless the rule of an ancestor of [a]
    raises. *)
Theorem relu_gradient (h : heap) (a : addr) :
  wf h → a < length h → (grad_at h a == 0)%Q →
  ∃ y h1 o h2,
    relu a h = (Ret y, h1) ∧
    (data_at h1 y == Qmax 0 (data_at h a))%Q ∧
    prev_at h1 y = {[a]} ∧
    backward iter y h1 = (o, h2) ∧
    (o = Ret tt ∨ o = Raise ZeroDivisionError) ∧
    ((∀ v, reachable h a v → ¬ raising h (backward_at h v)) → o = Ret tt) ∧
    ((data_at h a < 0)%Q → (grad_at h2 a == 0)%Q) ∧
    ((0 < data_at h a)%Q → (grad_at h2 a == 1)%Q).
Proof.
  intros Hwf Ha H0.
  destruct (load_valid h a Ha) as (va & Hva & Hd & _).
  rewrite (relu_run h a va) by done. rewrite Hd.
  set (nd := MkValue _ _ _ _).
  destruct (backward iter (length h) (h ++ [nd])) as [o h2] eqn:Hb.
  assert (_prev nd = {[a]}) as Hprev by apply prev_single.
  assert (node_ok (length h) nd) as Hnd by by apply node_ok_unary.
  assert (¬ raising (h ++ [nd]) (_backward nd)) as Hsafe by (simpl; tauto).
  assert (∀ p v, p ∈ _prev nd → reachable h p v → a ∉ prev_at h v) as Hown.
  { intros p v Hp. rewrite Hprev in Hp. apply elem_of_singleton in Hp as ->.
    by apply wf_not_parent_below. }
  destruct (backward_fresh iter iter_spec h h2 nd a o Hwf Hnd Hsafe Ha Hown Hb)
    as (Hout & Hret & _ & Hg).
  exists (length h), (h ++ [nd]), o, h2. split; [done|].
  rewrite data_at_snoc_new, prev_at_snoc_new. split.
  { simpl. destruct (Qlt_le_dec (data_at h a) 0) as [Hlt|Hle].
    - symmetry. apply Q.max_l. by apply Qlt_le_weak.
    - symmetry. by apply Q.max_r. }
  split; [done|]. split; [done|]. split; [done|]. split.
  { intros Hanc. apply Hret. intros p v Hp. rewrite Hprev in Hp.
    apply elem_of_singleton in Hp as ->. apply Hanc. }
  assert (grad_at h2 a ==
          0 + 1 * (if Qlt_le_dec 0 (data nd) then 1 else 0))%Q as Hg'.
  { rewrite Hg, H0. simpl. rewrite decide_True by done.
    by rewrite data_at_snoc_new. }
  simpl in Hg'. split; intros Hsign; rewrite Hg'.
  - destruct (Qlt_le_dec (data_at h a) 0) as [_|Hle].
    + destruct (Qlt_le_dec 0 0) as [Hlt|_]; [|reflexivity].
      by apply Qlt_irrefl in Hlt.
    + exfalso. by apply (Qlt_not_le _ _ Hsign).
  - destruct (Qlt_le_dec (data_at h a) 0) as [Hlt|_].
    + exfalso. apply (Qlt_irrefl 0). by eapply Qlt_trans.
    + destruct (Qlt_le_dec 0 (data_at h a)) as [_|Hle]; [reflexivity|].
      exfalso. by apply (Qlt_not_le _ _ Hsign).
Qed.



(** C1, as amended.  Dividing a node [a] by a node [b] whose value is
    exactly zero fails at the call: the division is [a * b ** -1], and
    [b ** -1] raises [ZeroDivisionError] before any node is built; the store
    is left as it was.  Nothing in the source guards or catches it. *)
Theorem truediv_by_zero_raises (h : heap) (a b : addr) :
  b < length h → (data_at h b == 0)%Q →
  __truediv__ a (Ref b) h = (Raise ZeroDivisionError, h).
Proof.
  intros Hb Hz. destruct (load_valid h b Hb) as (vb & Hvb & Hd & _).
  unfold __truediv__, bind.
  rewrite (pow_zero_raises h b (-1) vb); [done|done|lia|by rewrite Hd].
Qed.


(** C10.  [backward] changes gradients only: the store keeps its size, every
    node keeps its value, its parents and its rule, and the gradient of a
    node that is not reachable from the root is unchanged; this holds
    whether the pass returns or raises.  From a root in the store the
    outcome is a return or the [ZeroDivisionError] of a power rule. *)
Theorem backward_changes_only_gradients (h h' : heap) (r : addr) (o : outcome unit) :
  wf h → backward iter r h = (o, h') →
  length h' = length h ∧
  (∀ a, data_at h' a = data_at h a ∧ prev_at h' a = prev_at h a ∧
        backward_at h' a = backward_at h a) ∧
  (∀ a, ¬ reachable h r a → grad_at h' a = grad_at h a) ∧
  (r < length h → o = Ret tt ∨ o = Raise ZeroDivisionError).
Proof.
  intros Hwf Hrun.
  destruct (backward_only_grads iter iter_spec h h' r o Hwf Hrun)
    as [[Hlen Hsame] Hfr].
  split; [done|]. split; [done|]. split; [done|].
  intros Hr. by eapply backward_outcome.
Qed.

(** C3, as amended.  On a well-formed (hence acyclic) store and from any
    root, the traversal records exactly the nodes reachable from the root,
    each once, every node after all of its parents (so before them in the
    reversed order).  The reverse pass invokes the rules of the recorded
    nodes in reversed order, each at most once, and every one of them
    exactly once when it returns.  A rule that raises ends the pass: it is
    the last rule invoked, the pass raises what it raised, and the rules of
    the nodes after it are not invoked. *)
Theorem topo_order_once (h : heap) (r : addr) :
  wf h → r < length h →
  ∃ tp called o h',
    topo_order iter r h = Some tp ∧
    NoDup tp ∧
    (∀ x, x ∈ tp ↔ reachable h r x) ∧
    (∀ x p, x ∈ tp → p ∈ prev_at h x → before tp p x) ∧
    (∀ x p, x ∈ tp → p ∈ prev_at h x → before (reverse tp) x p) ∧
    backward_trace iter r h = (called, (o, h')) ∧
    called `prefix_of` reverse tp ∧
    NoDup called ∧
    (o = Ret tt → called = reverse tp) ∧
    (∀ e, o = Raise e →
       ∃ pre v h1, called = pre ++ [v] ∧
         call_backward v h1 = (Raise e, h')).
Proof.
  intros Hwf Hr.
  destruct (topo_order_spec iter iter_spec h Hwf r Hr)
    as (T & Ht & [Hnd Hbe] & Hin).
  destruct (backward_trace iter r h) as [called [o h']] eqn:Htr.
  exists (T ++ [r]), called, o, h'.
  split; [done|]. split; [done|]. split; [done|]. split; [done|].
  split; [intros x p Hx Hp; by apply before_reverse, Hbe|].
  split; [done|].
  assert (propagate (reverse (T ++ [r])) (alter (with_grad 1) r h) =
          (called, (o, h'))) as Hp.
  { rewrite <- Htr. unfold backward_trace. by rewrite Ht. }
  destruct (propagate_called _ _ _ _ _ Hp) as [Hpre Hall].
  split; [done|]. split.
  { destruct Hpre as [rest Hrest].
    apply NoDup_reverse_list in Hnd. rewrite Hrest in Hnd.
    by apply NoDup_app in Hnd as [? _]. }
  split; [done|].
  intros e ->. by eapply propagate_raised.
Qed.



End Claims.

(** * The claims on concrete graphs *)

Lemma wf_leaves (vs : list Q) : wf (leaves vs).
Proof.
  intros i v Hv. unfold leaves in Hv.
  apply list_lookup_fmap_Some in Hv as (d & -> & _). apply node_ok_leaf.
Qed.

Lemma is_leaf_leaves (vs : list Q) (i : addr) :
  i < length vs → is_leaf (leaves vs) i.
Proof.
  intros Hi. destruct (lookup_lt_is_Some_2 vs i Hi) as [d Hd].
  split; [unfold leaves; by rewrite length_map|].
  unfold prev_at, leaves. by rewrite list_lookup_fmap, Hd.
Qed.

Lemma diamond_built :
  (x <- __init__ 2 [] ;; y <- __init__ 3 [] ;;
   z <- __mul__ x (Ref y) ;; __add__ z (Ref x)) [] = (Ret 3, diamond).
Proof. reflexivity. Qed.

Lemma wf_diamond : wf diamond.
Proof.
  unfold diamond.
  apply (wf_snoc (leaves [2%Q; 3%Q] ++ [_])); [apply wf_snoc|].
  - apply wf_leaves.
  - apply node_ok_binary; simpl; (lia || done).
  - apply node_ok_binary; simpl; (lia || done).
Qed.

Lemma pow_zero_built :
  (x <- __init__ 0 [] ;; __pow__ x (IntExp 0)) [] = (Ret 1, pow_zero).
Proof. reflexivity. Qed.

Lemma wf_pow_zero : wf pow_zero.
Proof.
  apply wf_snoc; [apply wf_leaves|].
  apply node_ok_unary; simpl; (lia || done).
Qed.

(** C1 on [a = Value(1); b = Value(0); a / b]. *)
Lemma truediv_by_zero_raises_witness :
  __truediv__ 0 (Ref 1) (leaves [1%Q; 0%Q]) =
    (Raise ZeroDivisionError, leaves [1%Q; 0%Q]).
Proof.
  apply truediv_by_zero_raises; [simpl; lia|reflexivity].
Defined.

(** Against C1 as stated: [Value(1) / Value(0)] returns no node. *)
Lemma truediv_by_zero_counterexample :
  ¬ ∃ z h', __truediv__ 0 (Ref 1) (leaves [1%Q; 0%Q]) = (Ret z, h').
Proof. intros (z & h' & H). vm_compute in H. discriminate H. Qed.

(** C2 on [a = Value(3); b = a + a]. *)
Lemma add_self_gradient_witness :
  ∃ y h1 h2,
    __add__ 0 (Ref 0) (leaves [3%Q]) = (Ret y, h1) ∧
    prev_at h1 y = {[0]} ∧ size (prev_at h1 y) = 1 ∧
    backward sorted_iter y h1 = (Ret tt, h2) ∧
    (grad_at h2 0 == 2)%Q.
Proof.
  apply (add_self_gradient sorted_iter sorted_iter_spec).
  - apply wf_leaves.
  - apply is_leaf_leaves. simpl. lia.
  - reflexivity.
Defined.

(** C3 on the graph [diamond], from [w]. *)
Lemma topo_order_once_witness :
  ∃ tp called o,
    topo_order sorted_iter 3 diamond = Some tp ∧ NoDup tp ∧
    (∀ x, x ∈ tp ↔ reachable diamond 3 x) ∧
    fst (backward_trace sorted_iter 3 diamond) = called ∧
    fst (snd (backward_trace sorted_iter 3 diamond)) = o ∧
    (o = Ret tt → called = reverse tp).
Proof.
  destruct (topo_order_once sorted_iter sorted_iter_spec diamond 3 wf_diamond)
    as (tp & called & o & h' & Ht & Hnd & Hin & _ & _ & Htr & _ & _ & Hall & _).
  - simpl. lia.
  - exists tp, called, o. rewrite Htr. done.
Defined.

(** Against C3 as stated: in [x = Value(0); y = x ** 0], [backward] from
    [y] records [x], but the rule of [y] raises and the rule of [x] is never
    invoked. *)
Lemma pow_zero_pass_counterexample :
  wf pow_zero ∧
  ∃ tp called h',
    topo_order sorted_iter 1 pow_zero = Some tp ∧
    backward_trace sorted_iter 1 pow_zero =
      (called, (Raise ZeroDivisionError, h')) ∧
    0 ∈ tp ∧ 0 ∉ called.
Proof.
  split; [apply wf_pow_zero|]. exists [0; 1], [1]. eexists.
  split; [vm_compute; reflexivity|]. split; [vm_compute; reflexivity|].
  split; [by left|]. intros Hin. apply list_elem_of_singleton in Hin. lia.
Qed.








(** C8 on [x = Value(-2); y = x.relu()]. *)
Lemma relu_gradient_witness :
  ∃ y h1 h2,
    relu 0 (leaves [(-2)%Q]) = (Ret y, h1) ∧
    (data_at h1 y == 0)%Q ∧
    backward sorted_iter y h1 = (Ret tt, h2) ∧
    (grad_at h2 0 == 0)%Q.
Proof.
  pose proof (wf_leaves [(-2)%Q]) as Hwf.
  assert (is_leaf (leaves [(-2)%Q]) 0) as Hl
    by (apply is_leaf_leaves; simpl; lia).
  assert (grad_at (leaves [(-2)%Q]) 0 == 0)%Q as H0 by reflexivity.
  destruct (relu_gradient sorted_iter sorted_iter_spec (leaves [(-2)%Q]) 0
              Hwf (proj1 Hl) H0)
    as (y & h1 & o & h2 & Hop & Hv & _ & Hrun & _ & Hret & Hneg & _).
  exists y, h1, h2. rewrite Hrun, Hret.
  - split; [done|]. split; [by rewrite Hv|]. split; [done|].
    by apply Hneg.
  - intros v. by apply leaf_safe.
Defined.


(** C10 on the graph [diamond], from [z]: [w] is not reachable. *)
Lemma backward_changes_only_gradients_witness :
  length (snd (backward sorted_iter 2 diamond)) = length diamond ∧
  grad_at (snd (backward sorted_iter 2 diamond)) 3 = grad_at diamond 3 ∧
  data_at (snd (backward sorted_iter 2 diamond)) 2 = data_at diamond 2.
Proof.
  destruct (backward_changes_only_gradients sorted_iter sorted_iter_spec diamond
              (snd (backward sorted_iter 2 diamond)) 2
              (fst (backward sorted_iter 2 diamond)) wf_diamond)
    as (Hlen & Hsame & Hfr & _).
  - apply surjective_pairing.
  - split; [done|]. split; [|apply Hsame].
    apply Hfr. intros Hr.
    apply (wf_reachable_le _ _ _ wf_diamond) in Hr. lia.
Defined.

(** * Further properties of the engine *)


















(** X2.  [other - self] with a plain number on the left never returns a
    node: whatever the recursion budget, [__rsub__] re-enters itself until
    the budget is exhausted, and the store is left as it was.  With a node
    on the left it is the subtraction [other - self] of [__sub__]. *)
Theorem rsub_number_never_returns (depth : nat) (self : addr) (q : Q)
    (h : heap) :
  __rsub__ depth self (Num q) h = (Raise Stuck, h) ∧
  ∀ b, __rsub__ depth self (Ref b) h = __sub__ b (Ref self) h.
Proof.
  split; [|intros b; by destruct depth].
  induction depth as [|depth IH]; [done|]. exact IH.
Qed.

Lemma raising_snoc_old (h : heap) (nd : Value) (v : addr) :
  wf h → v < length h →
  raising (h ++ [nd]) (backward_at (h ++ [nd]) v) ↔
  raising h (backward_at h v).
Proof.
  intros Hwf Hv. rewrite backward_at_snoc_old by done.
  destruct (wf_backward_at h v Hwf Hv) as (_ & Hops & _).
  destruct (backward_at h v) as [| | |s k out|]; try done. simpl.
  assert (s < v) by (apply Hops; left).
  by rewrite data_at_snoc_old by lia.
Qed.

(** The store after a plain number was wrapped into a fresh leaf. *)
Lemma literal_store (h : heap) (a : addr) (q : Q) :
  wf h → a < length h →
  wf (h ++ [MkValue q 0 Noop ∅]) ∧
  is_leaf (h ++ [MkValue q 0 Noop ∅]) (length h) ∧
  (∀ x p v, x = a ∨ x = length h →
     p ∈ list_to_set (C:=gset addr) [a; length h] →
     reachable (h ++ [MkValue q 0 Noop ∅]) p v →
     x ∉ prev_at (h ++ [MkValue q 0 Noop ∅]) v) ∧
  ((∀ v, reachable h a v → ¬ raising h (backward_at h v)) →
   ∀ p v, p ∈ list_to_set (C:=gset addr) [a; length h] →
     reachable (h ++ [MkValue q 0 Noop ∅]) p v →
     ¬ raising (h ++ [MkValue q 0 Noop ∅])
         (backward_at (h ++ [MkValue q 0 Noop ∅]) v)).
Proof.
  intros Hwf Ha. set (lf := MkValue q 0 Noop ∅).
  assert (wf (h ++ [lf])) as Hwf' by (apply wf_snoc; [done|apply node_ok_leaf]).
  assert (is_leaf (h ++ [lf]) (length h)) as Hleaf.
  { split; [len|]. by heap_simpl. }
  split; [done|]. split; [done|]. split.
  - intros x p v Hx Hp Hv Hin. apply prev_pair in Hp as [->| ->].
    + apply reachable_snoc_old in Hv; [|done..].
      pose proof (wf_reachable_le _ _ _ Hwf Hv) as Hle.
      rewrite prev_at_snoc_old in Hin by lia.
      pose proof (wf_prev_lt _ _ _ Hwf Hin). lia.
    + apply (reachable_leaf _ _ _ (proj2 Hleaf)) in Hv as ->.
      rewrite (proj2 Hleaf) in Hin. by apply elem_of_empty in Hin.
  - intros Hsafe p v Hp Hv. apply prev_pair in Hp as [->| ->].
    + apply reachable_snoc_old in Hv; [|done..].
      rewrite raising_snoc_old; [by apply Hsafe|done|].
      pose proof (wf_reachable_le _ _ _ Hwf Hv). lia.
    + apply (reachable_leaf _ _ _ (proj2 Hleaf)) in Hv as ->.
      rewrite backward_at_snoc_new. simpl. tauto.
Qed.

Section FurtherBackward.

Variable iter : addr → gset addr → list addr.
Hypothesis iter_spec : ∀ v s x, x ∈ iter v s ↔ x ∈ s.

(** The pass from [a * c] for a plain number [c]. *)
Lemma mul_literal_pass (h : heap) (a : addr) (c : Q) :
  wf h → a < length h →
  ∃ z h1 o h2,
    __mul__ a (Num c) h = (Ret z, h1) ∧
    is_leaf h1 (length h) ∧ data_at h1 (length h) = c ∧
    prev_at h1 z = list_to_set [a; length h] ∧
    data_at h1 z = (data_at h a * c)%Q ∧
    backward iter z h1 = (o, h2) ∧
    (o = Ret tt ∨ o = Raise ZeroDivisionError) ∧
    ((∀ v, reachable h a v → ¬ raising h (backward_at h v)) → o = Ret tt) ∧
    (grad_at h2 a == grad_at h a + c)%Q ∧
    (grad_at h2 (length h) == data_at h a)%Q.
Proof.
  intros Hwf Ha. destruct (load_valid h a Ha) as (va & Hva & Hda & _).
  rewrite (mul_num_run h a c va Hva).
  set (lf := MkValue c 0 Noop ∅). set (nd := MkValue _ 0 (MulBackward _ _ _) _).
  destruct (literal_store h a c Hwf Ha) as (Hwf' & Hleaf & Hown & Hsafe).
  fold lf in Hwf', Hleaf, Hown, Hsafe.
  destruct (backward iter (length (h ++ [lf])) ((h ++ [lf]) ++ [nd]))
    as [o h2] eqn:Hrun.
  assert (node_ok (length (h ++ [lf])) nd) as Hnd
    by (apply node_ok_binary; try done; len).
  assert (¬ raising ((h ++ [lf]) ++ [nd]) (_backward nd)) as Hnr
    by (simpl; tauto).
  assert (a < length (h ++ [lf])) as Ha' by len.
  assert (length h < length (h ++ [lf])) as Hl' by len.
  assert (∀ p v, p ∈ _prev nd → reachable (h ++ [lf]) p v →
            a ∉ prev_at (h ++ [lf]) v) as Howna
    by (intros p v; apply Hown; auto).
  assert (∀ p v, p ∈ _prev nd → reachable (h ++ [lf]) p v →
            length h ∉ prev_at (h ++ [lf]) v) as Hownl
    by (intros p v; apply Hown; auto).
  destruct (backward_fresh iter iter_spec (h ++ [lf]) h2 nd a o
              Hwf' Hnd Hnr Ha' Howna Hrun) as (Hout & Hret & _ & Hga).
  destruct (backward_fresh iter iter_spec (h ++ [lf]) h2 nd (length h) o
              Hwf' Hnd Hnr Hl' Hownl Hrun) as (_ & _ & _ & Hgl).
  exists (length (h ++ [lf])), ((h ++ [lf]) ++ [nd]), o, h2.
  split; [done|].
  split; [split; [len|by heap_simpl]|].
  split; [by heap_simpl|]. split; [by heap_simpl|].
  split; [heap_simpl; simpl; by rewrite Hda|].
  split; [done|]. split; [done|]. split; [by intros ?; apply Hret, Hsafe|].
  assert (a ≠ length h) by lia.
  split.
  - rewrite Hga. heap_simpl. simpl. heap_simpl.
    rewrite decide_True, decide_False by done. simpl. ring.
  - rewrite Hgl. heap_simpl. simpl. heap_simpl.
    rewrite decide_False, decide_True by done. simpl. ring.
Qed.


End FurtherBackward.

Section FurtherClaims.

Variable iter : addr → gset addr → list addr.
Hypothesis iter_spec : ∀ v s x, x ∈ iter v s ↔ x ∈ s.




(** X6.  For every node [a] with gradient initially 0, [-a] has value
    [- a.value] and [backward] from it leaves [a.grad == -1]. *)
Theorem neg_gradient (h : heap) (a : addr) :
  wf h → a < length h → (grad_at h a == 0)%Q →
  ∃ z h1 o h2,
    __neg__ a h = (Ret z, h1) ∧
    (data_at h1 z == - data_at h a)%Q ∧
    backward iter z h1 = (o, h2) ∧
    (o = Ret tt ∨ o = Raise ZeroDivisionError) ∧
    ((∀ v, reachable h a v → ¬ raising h (backward_at h v)) → o = Ret tt) ∧
    (grad_at h2 a == -1)%Q.
Proof.
  intros Hwf Ha H0. unfold __neg__.
  destruct (mul_literal_pass iter iter_spec h a (-1) Hwf Ha)
    as (z & h1 & o & h2 & Hop & _ & _ & _ & Hv & Hrun & Ho & Hret & Hga & _).
  exists z, h1, o, h2. rewrite Hv.
  split; [done|]. split; [ring|]. repeat (split; [done|]).
  rewrite Hga, H0. ring.
Qed.


End FurtherClaims.

Section FurtherPasses.

Variable iter : addr → gset addr → list addr.
Hypothesis iter_spec : ∀ v s x, x ∈ iter v s ↔ x ∈ s.

(** The pass from a root whose rule raises stops after the seed. *)
Lemma backward_root_raises (h : heap) (r : addr) :
  wf h → r < length h → raising h (backward_at h r) →
  backward iter r h = (Raise ZeroDivisionError, alter (with_grad 1) r h).
Proof.
  intros Hwf Hr Hraise.
  destruct (backward_unfold iter iter_spec h r Hwf Hr) as (T & _ & _ & _ & _ & Htr).
  pose proof (same_graph_alter_grad h r 1) as Hs.
  unfold backward. rewrite Htr. simpl.
  rewrite call_backward_raises; [done| | |].
  - by eapply same_graph_wf.
  - by rewrite length_alter.
  - rewrite (proj2 (proj2 (proj2 Hs r))). by rewrite same_graph_raising.
Qed.

(** The pass from a leaf is the seed assignment. *)
Lemma backward_leaf_run (h : heap) (r : addr) :
  wf h → is_leaf h r →
  backward_trace iter r h = ([r], (Ret tt, alter (with_grad 1) r h)).
Proof.
  intros Hwf Hleaf. pose proof (proj1 Hleaf) as Hr.
  destruct (backward_unfold iter iter_spec h r Hwf Hr) as (T & _ & _ & _ & HT & Htr).
  assert (T = []) as ->.
  { destruct T as [|x T]; [done|]. exfalso.
    destruct (proj1 (HT x)) as [Hne Hreach]; [left|].
    by apply (reachable_leaf _ _ _ (proj2 Hleaf)) in Hreach. }
  pose proof (same_graph_alter_grad h r 1) as Hs.
  rewrite Htr. simpl. rewrite call_backward_unfold by by rewrite length_alter.
  rewrite (proj2 (proj2 (proj2 Hs r))), (wf_leaf_noop h r Hwf Hleaf). done.
Qed.


End FurtherPasses.

(** ** The adjoint equations *)

Lemma sumQ_ext (f g : addr → Q) (l : list addr) :
  (∀ v, v ∈ l → (f v == g v)%Q) → (sumQ f l == sumQ g l)%Q.
Proof.
  induction l as [|x l IH]; intros Hfg; simpl; [reflexivity|].
  rewrite (Hfg x) by left. rewrite IH; [reflexivity|].
  intros v Hv. apply Hfg. by right.
Qed.

Lemma sumQ_app (f : addr → Q) (l1 l2 : list addr) :
  (sumQ f (l1 ++ l2) == sumQ f l1 + sumQ f l2)%Q.
Proof.
  induction l1 as [|x l1 IH]; simpl; [ring|]. rewrite IH. ring.
Qed.

Lemma sumQ_reverse (f : addr → Q) (l : list addr) :
  (sumQ f (reverse l) == sumQ f l)%Q.
Proof.
  induction l as [|x l IH]; [reflexivity|].
  rewrite reverse_cons, sumQ_app, IH. simpl. ring.
Qed.

Lemma pass_order_same_graph (h h' : heap) (l : list addr) :
  same_graph h h' → pass_order h l → pass_order h' l.
Proof.
  intros Hs. induction l as [|v l IH]; [done|]. simpl.
  intros [Hhead Htail]. split; [|by apply IH].
  intros u Hu. rewrite (proj2 (proj2 (proj2 Hs u))). by apply Hhead.
Qed.

Lemma topo_ok_init (h : heap) (l : list addr) (x : addr) :
  topo_ok h (l ++ [x]) → topo_ok h l.
Proof.
  intros [Hnd Hbe]. pose proof Hnd as Hnd'.
  apply NoDup_app in Hnd' as (Hndl & _ & _). split; [done|].
  intros y p Hy Hp.
  destruct (Hbe y p) as (i & j & Hij & Hi & Hj); [apply elem_of_app; by left|done|].
  apply list_elem_of_lookup_1 in Hy as [j' Hj'].
  pose proof (lookup_lt_Some _ _ _ Hj') as Hlt.
  assert (j = j') as ->.
  { eapply NoDup_lookup; [exact Hnd|exact Hj|]. by apply lookup_app_l_Some. }
  exists i, j'. split; [done|]. split; [|done].
  by rewrite lookup_app_l in Hi by lia.
Qed.

(** The reversed record of a traversal is an order of invocation. *)
Lemma pass_order_reverse (h : heap) (tp : list addr) :
  wf h → topo_ok h tp → (∀ x, x ∈ tp → x < length h) →
  pass_order h (reverse tp).
Proof.
  intros Hwf. induction tp as [|x tp IH] using rev_ind; [done|].
  intros Hok Hvalid. rewrite reverse_snoc. simpl. split.
  - intros u Hu Hin.
    assert (u < length h) as Hul.
    { apply Hvalid. apply elem_of_cons in Hu as [->|Hu].
      - apply elem_of_app. right. by left.
      - apply elem_of_app. left. by apply elem_of_reverse. }
    destruct (wf_backward_at h u Hwf Hul) as (Hsub & Hlt & _).
    pose proof (Hlt _ Hin) as Hxu. apply Hsub in Hin.
    apply elem_of_cons in Hu as [->|Hu]; [lia|].
    rewrite elem_of_reverse in Hu.
    { destruct Hok as [Hnd Hbe].
      destruct (Hbe u x) as (i & j & Hij & Hi & Hj);
        [apply elem_of_app; by left|done|].
      pose proof (lookup_lt_Some _ _ _ Hj) as Hjl.
      rewrite length_app in Hjl. simpl in Hjl.
      assert (i = length tp) as ->; [|lia].
      eapply NoDup_lookup; [exact Hnd|exact Hi|].
      by rewrite list_lookup_middle. }
  - apply IH; [by eapply topo_ok_init|].
    intros y Hy. apply Hvalid, elem_of_app. by left.
Qed.

(** A pass that returns leaves the gradients that solve the adjoint
    equations of the rules it ran. *)
Lemma propagate_adjoint (l : list addr) :
  ∀ h h' : heap,
  wf h → (∀ v, v ∈ l → v < length h) → pass_order h l →
  propagate l h = (l, (Ret tt, h')) →
  ∀ x, (grad_at h' x ==
        grad_at h x +
        sumQ (λ v, grad_at h' v * local_weight h (backward_at h v) x) l)%Q.
Proof.
  induction l as [|v l IH]; intros h h' Hwf Hvalid Hord Hp x.
  - simpl in Hp. simplify_eq. simpl. ring.
  - pose proof Hp as Hfull. simpl in Hp.
    assert (v < length h) as Hv by (apply Hvalid; left).
    destruct (raising_dec h (backward_at h v)) as [Hr|Hr].
    { rewrite call_backward_raises in Hp by done. simplify_eq. }
    destruct (call_backward_returns h v Hwf Hv Hr) as (h1 & Hc & Hs & Hg).
    rewrite Hc in Hp.
    destruct (propagate l h1) as [called [o h2]] eqn:Hp1. simplify_eq.
    destruct Hord as [Hhead Htail].
    assert (grad_at h' v = grad_at h v) as Hfix.
    { apply propagate_frame in Hfull as [_ Hfr]. by apply Hfr. }
    rewrite (IH h1 h'); [|by eapply same_graph_wf| |by eapply pass_order_same_graph|done].
    2:{ intros u Hu. rewrite (proj1 Hs). apply Hvalid. by right. }
    simpl. rewrite Hg, Hfix.
    rewrite (sumQ_ext _
      (λ u, grad_at h' u * local_weight h (backward_at h u) x)%Q); [ring|].
    intros u _. rewrite (proj2 (proj2 (proj2 Hs u))).
    by rewrite (local_weight_same_graph h h1).
Qed.

Section Adjoint.

Variable iter : addr → gset addr → list addr.
Hypothesis iter_spec : ∀ v s x, x ∈ iter v s ↔ x ∈ s.

(** X8.  A [backward] that returns leaves the gradients that the chain
    rule prescribes: the gradient of every node is what it was before (the
    seed 1 for the root) plus, summed over the recorded nodes, the final
    gradient of the node times the local derivative of its rule with
    respect to this node. *)
Theorem backward_adjoint (h h' : heap) (r : addr) :
  wf h → r < length h → backward iter r h = (Ret tt, h') →
  ∃ tp,
    topo_order iter r h = Some tp ∧
    ∀ x, (grad_at h' x ==
          (if decide (x = r) then 1 else grad_at h x) +
          sumQ (λ v, grad_at h' v * local_weight h (backward_at h v) x) tp)%Q.
Proof.
  intros Hwf Hr Hrun.
  destruct (topo_order_spec iter iter_spec h Hwf r Hr) as (T & Ht & Hok & Hin).
  exists (T ++ [r]). split; [done|]. intros x.
  pose proof (same_graph_alter_grad h r 1) as Hs.
  assert (∀ v, v ∈ T ++ [r] → v < length h) as Hvalid.
  { intros v Hv. apply Hin, (wf_reachable_le _ _ _ Hwf) in Hv. lia. }
  unfold backward, backward_trace in Hrun. rewrite Ht in Hrun.
  destruct (propagate _ _) as [called [o h2]] eqn:Hp.
  simpl in Hrun. simplify_eq.
  destruct (propagate_called _ _ _ _ _ Hp) as [_ Hall].
  rewrite Hall in Hp by done.
  assert (∀ v, v ∈ reverse (T ++ [r]) →
            v < length (alter (with_grad 1) r h)) as Hv0.
  { intros v Hv. rewrite length_alter. by apply Hvalid, elem_of_reverse. }
  assert (pass_order (alter (with_grad 1) r h) (reverse (T ++ [r]))) as Hord.
  { eapply pass_order_same_graph; [done|]. by apply pass_order_reverse. }
  rewrite (propagate_adjoint _ _ _ (same_graph_wf _ _ Hs Hwf) Hv0 Hord Hp).
  rewrite sumQ_reverse, grad_at_alter by done.
  rewrite (sumQ_ext _
    (λ v, grad_at h' v * local_weight h (backward_at h v) x)%Q);
    [reflexivity|].
  intros v _. rewrite (proj2 (proj2 (proj2 Hs v))).
  by rewrite (local_weight_same_graph h _).
Qed.

End Adjoint.

Section EdgeClaims.

Variable iter : addr → gset addr → list addr.
Hypothesis iter_spec : ∀ v s x, x ∈ iter v s ↔ x ∈ s.

(** X9.  The slope of [relu] at zero is 0: for every node [a], whatever
    [a.grad] holds, when [a.value <= 0] the result has value 0 and
    [backward] from it leaves [a.grad] as it was, and when [a.value > 0]
    the result has value [a.value] and [backward] adds 1 to [a.grad]. *)
Theorem relu_slope (h : heap) (a : addr) :
  wf h → a < length h →
  ∃ y h1 o h2,
    relu a h = (Ret y, h1) ∧ backward iter y h1 = (o, h2) ∧
    ((data_at h a <= 0)%Q →
     (data_at h1 y == 0)%Q ∧ (grad_at h2 a == grad_at h a)%Q) ∧
    ((0 < data_at h a)%Q →
     (data_at h1 y == data_at h a)%Q ∧ (grad_at h2 a == grad_at h a + 1)%Q).
Proof.
  intros Hwf Ha.
  destruct (load_valid h a Ha) as (va & Hva & Hd & _).
  rewrite (relu_run h a va) by done. rewrite Hd.
  set (nd := MkValue _ _ _ _).
  destruct (backward iter (length h) (h ++ [nd])) as [o h2] eqn:Hb.
  assert (_prev nd = {[a]}) as Hprev by apply prev_single.
  assert (node_ok (length h) nd) as Hnd by by apply node_ok_unary.
  assert (¬ raising (h ++ [nd]) (_backward nd)) as Hsafe by (simpl; tauto).
  assert (∀ p v, p ∈ _prev nd → reachable h p v → a ∉ prev_at h v) as Hown.
  { intros p v Hp. rewrite Hprev in Hp. apply elem_of_singleton in Hp as ->.
    by apply wf_not_parent_below. }
  destruct (backward_fresh iter iter_spec h h2 nd a o Hwf Hnd Hsafe Ha Hown Hb)
    as (_ & _ & _ & Hg).
  exists (length h), (h ++ [nd]), o, h2. split; [done|]. split; [done|].
  assert (grad_at h2 a ==
          grad_at h a + 1 * (if Qlt_le_dec 0 (data nd) then 1 else 0))%Q as Hg'.
  { rewrite Hg. simpl. rewrite decide_True by done.
    by rewrite data_at_snoc_new. }
  rewrite data_at_snoc_new. simpl in *.
  split; intros Hsign; rewrite Hg'.
  - destruct (Qlt_le_dec (data_at h a) 0) as [Hlt|Hle].
    + destruct (Qlt_le_dec 0 0) as [Hlt0|_]; [by apply Qlt_irrefl in Hlt0|].
      split; [reflexivity|ring].
    + assert (data_at h a == 0)%Q as Hz by by apply Qle_antisym.
      destruct (Qlt_le_dec 0 (data_at h a)) as [Hpos|_].
      * exfalso. rewrite Hz in Hpos. by apply Qlt_irrefl in Hpos.
      * split; [done|ring].
  - destruct (Qlt_le_dec (data_at h a) 0) as [Hlt|_].
    + exfalso. apply (Qlt_irrefl 0). by eapply Qlt_trans.
    + destruct (Qlt_le_dec 0 (data_at h a)) as [_|Hle].
      * split; [reflexivity|ring].
      * exfalso. by apply (Qlt_not_le _ _ Hsign).
Qed.

(** X10.  [a ** 0] at a node [a] of value zero builds a node of value 1,
    but [backward] from that node raises [ZeroDivisionError] in the rule of
    the root (it evaluates [0 ** -1]) after the seed was assigned: the
    gradient of the root is 1 and nothing else has changed. *)
Theorem pow_zero_exponent_aborts (h : heap) (a : addr) :
  wf h → a < length h → (data_at h a == 0)%Q →
  ∃ y h1,
    __pow__ a (IntExp 0) h = (Ret y, h1) ∧ (data_at h1 y == 1)%Q ∧
    backward iter y h1 = (Raise ZeroDivisionError, alter (with_grad 1) y h1).
Proof.
  intros Hwf Ha Hz.
  destruct (load_valid h a Ha) as (va & Hva & Hd & _).
  rewrite (pow_run h a 0 va Hva) by done.
  set (nd := MkValue _ _ _ _).
  exists (length h), (h ++ [nd]). split; [done|].
  split; [by rewrite data_at_snoc_new|].
  apply backward_root_raises; [done| |len|].
  - apply wf_snoc; [done|]. by apply node_ok_unary.
  - rewrite backward_at_snoc_new. simpl. split; [lia|].
    by rewrite data_at_snoc_old.
Qed.

(** X11.  [backward] from a leaf records the leaf alone, invokes its no-op
    rule and returns: the gradient of the leaf is overwritten with 1 and
    the rest of the store is as it was. *)
Theorem backward_from_leaf (h : heap) (r : addr) :
  wf h → is_leaf h r →
  topo_order iter r h = Some [r] ∧
  backward_trace iter r h = ([r], (Ret tt, alter (with_grad 1) r h)) ∧
  grad_at (alter (with_grad 1) r h) r = 1%Q ∧
  ∀ x, x ≠ r → alter (with_grad 1) r h !! x = h !! x.
Proof.
  intros Hwf Hleaf. pose proof (proj1 Hleaf) as Hr.
  split; [|split; [by apply backward_leaf_run|split]].
  - destruct (topo_order_spec iter iter_spec h Hwf r Hr) as (T & Ht & Hok & Hin).
    destruct T as [|x T]; [done|]. exfalso.
    assert (reachable h r x) as Hx by (apply Hin; left).
    apply (reachable_leaf _ _ _ (proj2 Hleaf)) in Hx as ->.
    destruct Hok as [Hnd _]. apply NoDup_cons in Hnd as [Hnot _].
    apply Hnot, elem_of_app. right. by left.
  - by apply grad_at_alter_eq.
  - intros x Hx. by apply list_lookup_alter_ne.
Qed.



End EdgeClaims.

(** * The network layer *)


Lemma prefix_grad_at (h h' : heap) (a : addr) :
  h `prefix_of` h' → a < length h → grad_at h' a = grad_at h a.
Proof.
  intros [k ->] Ha. unfold grad_at. by rewrite lookup_app_l.
Qed.

Lemma prefix_prev_at (h h' : heap) (a : addr) :
  h `prefix_of` h' → a < length h → prev_at h' a = prev_at h a.
Proof.
  intros [k ->] Ha. unfold prev_at. by rewrite lookup_app_l.
Qed.



















(** ** Construction of a network *)

Lemma leaves_app (ds ds' : list Q) : leaves (ds ++ ds') = leaves ds ++ leaves ds'.
Proof. unfold leaves. apply map_app. Qed.

Lemma length_leaves (ds : list Q) : length (leaves ds) = length ds.
Proof. unfold leaves. apply length_map. Qed.

Lemma wf_app_leaves (h : heap) (ds : list Q) : wf h → wf (h ++ leaves ds).
Proof.
  intros Hwf i v Hv. apply lookup_app_Some in Hv as [Hv|[_ Hv]]; [by apply Hwf|].
  unfold leaves in Hv. apply list_lookup_fmap_Some in Hv as (d & -> & _).
  apply node_ok_leaf.
Qed.

Lemma lookup_app_leaves (h : heap) (ds : list Q) (j : nat) (d : Q) :
  ds !! j = Some d →
  (h ++ leaves ds) !! (length h + j) = Some (MkValue d 0 Noop ∅).
Proof.
  intros Hd. rewrite lookup_app_r by lia.
  replace (length h + j - length h) with j by lia.
  unfold leaves. by rewrite list_lookup_fmap, Hd.
Qed.

Lemma init_weights_run (rng : nat → Q) (nin : nat) :
  ∀ (k : nat) (h : heap),
  Neuron.init_weights rng k nin h =
    (Ret (seq (length h) nin), h ++ leaves (map rng (seq k nin))).
Proof.
  induction nin as [|nin IH]; intros k h; simpl.
  - unfold ret. by rewrite app_nil_r.
  - unfold bind, __init__. rewrite IH. unfold ret.
    rewrite length_app, <- app_assoc. simpl.
    by replace (length h + 1) with (S (length h)) by lia.
Qed.

Lemma neuron_init_run (rng : nat → Q) (k nin : nat) (nl : bool) (h : heap) :
  Neuron.__init__ rng k nin nl h =
    (Ret (Neuron.Mk (seq (length h) nin) (length h + nin) nl),
     h ++ leaves (neuron_data rng k nin)).
Proof.
  unfold Neuron.__init__, bind. rewrite init_weights_run. unfold __init__, ret.
  unfold neuron_data. rewrite leaves_app, app_assoc.
  by rewrite length_app, length_leaves, length_map, length_seq.
Qed.

Lemma length_neuron_data (rng : nat → Q) (k nin : nat) :
  length (neuron_data rng k nin) = S nin.
Proof.
  unfold neuron_data. rewrite length_app, length_map, length_seq. simpl. lia.
Qed.

Lemma length_layer_data (rng : nat → Q) (nin nout : nat) :
  ∀ k, length (layer_data rng k nin nout) = nout * S nin.
Proof.
  induction nout as [|nout IH]; intros k; simpl; [done|].
  rewrite length_app, length_neuron_data, IH. lia.
Qed.

Lemma length_mlp_data (rng : nat → Q) (nouts : list nat) :
  ∀ k nin, length (mlp_data rng k nin nouts) = count_parameters (nin :: nouts).
Proof.
  induction nouts as [|nout rest IH]; intros k nin; [done|].
  change (mlp_data rng k nin (nout :: rest))
    with (layer_data rng k nin nout ++ mlp_data rng (k + nin * nout) nout rest).
  change (count_parameters (nin :: nout :: rest))
    with (nout * S nin + count_parameters (nout :: rest)).
  by rewrite length_app, length_layer_data, IH.
Qed.

Lemma init_neurons_run (rng : nat → Q) (nin : nat) (nl : bool) (nout : nat) :
  ∀ (k : nat) (h : heap),
  ∃ ns, Layer.init_neurons rng k nin nout nl h =
          (Ret ns, h ++ leaves (layer_data rng k nin nout)) ∧
    map (λ n, (length (Neuron.w n), Neuron.nonlin n)) ns =
      replicate nout (nin, nl) ∧
    concat (map Neuron.parameters ns) = seq (length h) (nout * S nin).
Proof.
  induction nout as [|nout IH]; intros k h; simpl.
  { exists []. unfold ret. by rewrite app_nil_r. }
  destruct (IH (k + nin) (h ++ leaves (neuron_data rng k nin)))
    as (ns & Hrun & Hshape & Hps).
  eexists. unfold bind. rewrite neuron_init_run, Hrun. unfold ret.
  split; [by rewrite leaves_app, app_assoc|]. split.
  - simpl. by rewrite Hshape, length_seq.
  - cbn [map concat]. rewrite Hps. unfold Neuron.parameters. cbn [Neuron.w Neuron.b].
    rewrite length_app, length_leaves, length_neuron_data.
    by rewrite <- seq_S, <- seq_app.
Qed.

Lemma init_layers_run (rng : nat → Q) (rest : list nat) :
  ∀ (pre : list nat) (nin k : nat) (h : heap),
  ∃ ls, MLP.init_layers rng k (pre ++ nin :: rest)
          (length pre + length rest) (seq (length pre) (length rest)) h =
          (Ret ls, h ++ leaves (mlp_data rng k nin rest)) ∧
    shape_of ls = layer_shapes nin rest ∧
    concat (map Layer.parameters ls) =
      seq (length h) (count_parameters (nin :: rest)).
Proof.
  induction rest as [|nout rest IH]; intros pre nin k h.
  { exists []. simpl. unfold ret. by rewrite app_nil_r. }
  change (mlp_data rng k nin (nout :: rest))
    with (layer_data rng k nin nout ++ mlp_data rng (k + nin * nout) nout rest).
  change (count_parameters (nin :: nout :: rest))
    with (nout * S nin + count_parameters (nout :: rest)).
  change (seq (length pre) (length (nout :: rest)))
    with (length pre :: seq (S (length pre)) (length rest)).
  cbn [MLP.init_layers].
  assert (nth (length pre) (pre ++ nin :: nout :: rest) 0 = nin) as ->.
  { by rewrite app_nth2, Nat.sub_diag by lia. }
  assert (nth (length pre + 1) (pre ++ nin :: nout :: rest) 0 = nout) as ->.
  { rewrite app_nth2 by lia.
    by replace (length pre + 1 - length pre) with 1 by lia. }
  assert ((length pre =? length pre + length (nout :: rest) - 1) =
          bool_decide (rest = [])) as ->.
  { destruct rest as [|n' rest']; simpl length.
    - rewrite bool_decide_eq_true_2 by done. apply Nat.eqb_eq. lia.
    - rewrite bool_decide_eq_false_2 by done. apply Nat.eqb_neq. lia. }
  destruct (init_neurons_run rng nin (negb (bool_decide (rest = []))) nout k h)
    as (ns & Hns & Hshape & Hps).
  destruct (IH (pre ++ [nin]) nout (k + nin * nout)
              (h ++ leaves (layer_data rng k nin nout)))
    as (ls & Hls & Hshapes & Hpss).
  rewrite <- app_assoc in Hls. simpl in Hls.
  rewrite length_app in Hls. simpl length in Hls.
  replace (length pre + 1 + length rest)
    with (length pre + length (nout :: rest)) in Hls by (simpl; lia).
  replace (length pre + 1) with (S (length pre)) in Hls by lia.
  exists (Layer.Mk ns :: ls). unfold bind, Layer.__init__, bind.
  rewrite Hns. unfold ret. rewrite Hls.
  split; [by rewrite leaves_app, app_assoc|]. split.
  - simpl. by rewrite Hshape, Hshapes.
  - simpl. unfold Layer.parameters at 1. simpl. rewrite Hps, Hpss.
    rewrite length_app, length_leaves, length_layer_data.
    by rewrite seq_app.
Qed.

Lemma data_at_app_leaves (h : heap) (ds : list Q) :
  map (data_at (h ++ leaves ds)) (seq (length h) (length ds)) = ds.
Proof.
  apply list_eq. intros j. rewrite list_lookup_fmap.
  destruct (ds !! j) as [d|] eqn:Hd.
  - rewrite (lookup_seq_lt _ _ _ (lookup_lt_Some _ _ _ Hd)). simpl.
    unfold data_at. by rewrite (lookup_app_leaves h ds j d Hd).
  - by rewrite lookup_seq_ge by by apply lookup_ge_None.
Qed.

Lemma fresh_leaves (h : heap) (ds : list Q) (p : addr) :
  p ∈ seq (length h) (length ds) →
  is_leaf (h ++ leaves ds) p ∧ grad_at (h ++ leaves ds) p = 0%Q ∧
  backward_at (h ++ leaves ds) p = Noop.
Proof.
  intros [Hge Hlt]%elem_of_seq.
  destruct (lookup_lt_is_Some_2 ds (p - length h)) as [d Hd]; [lia|].
  pose proof (lookup_app_leaves h ds _ d Hd) as Hp.
  replace (length h + (p - length h)) with p in Hp by lia.
  unfold is_leaf, prev_at, grad_at, backward_at. rewrite Hp.
  rewrite length_app, length_leaves. split; [split; [lia|done]|done].
Qed.

(** X14.  [Neuron(nin, nonlin)] appends [nin + 1] leaves to the store and
    changes no node that was there: the weights hold the [nin] numbers drawn,
    in the order drawn, and the bias holds [0.0].  [parameters()] lists the
    weights in that order and the bias last; each of them has gradient [0],
    no parents and the no-op closure. *)
Theorem neuron_construction (rng : nat → Q) (k nin : nat) (nl : bool) (h : heap) :
  ∃ n h', Neuron.__init__ rng k nin nl h = (Ret n, h') ∧
    h' = h ++ leaves (map rng (seq k nin) ++ [0%Q]) ∧
    Neuron.nonlin n = nl ∧ length (Neuron.w n) = nin ∧
    Neuron.parameters n = seq (length h) (S nin) ∧
    map (data_at h') (Neuron.w n) = map rng (seq k nin) ∧
    data_at h' (Neuron.b n) = 0%Q ∧
    ∀ p, p ∈ Neuron.parameters n →
      is_leaf h' p ∧ grad_at h' p = 0%Q ∧ backward_at h' p = Noop.
Proof.
  do 2 eexists. split; [apply neuron_init_run|]. split; [done|].
  split; [done|]. split; [apply length_seq|].
  assert (Neuron.parameters
            (Neuron.Mk (seq (length h) nin) (length h + nin) nl) =
          seq (length h) (length (neuron_data rng k nin))) as Hps.
  { rewrite length_neuron_data, seq_S. done. }
  pose proof (data_at_app_leaves h (neuron_data rng k nin)) as Hd.
  rewrite <- Hps in Hd. unfold Neuron.parameters in Hd. cbn [Neuron.w Neuron.b] in Hd.
  rewrite map_app in Hd. unfold neuron_data in Hd at 2.
  apply app_inj_1 in Hd as [Hw Hb];
    [|by rewrite !length_map, !length_seq].
  split; [by rewrite Hps, length_neuron_data|]. split; [exact Hw|].
  split; [by injection Hb|].
  intros p Hp. rewrite Hps in Hp. by apply fresh_leaves.
Qed.



(** X16.  [MLP(nin, nouts)] appends one leaf for each parameter and changes
    no node that was there.  Layer [i] has [nouts[i]] neurons, each with as
    many weights as the layer before has neurons ([nin] for the first);
    every layer but the last is non-linear.  [parameters()] lists the new
    nodes in the order of creation, [nouts[i] * (sz[i] + 1)] of them for
    each layer; they hold the numbers drawn, with [0.0] for each bias, and
    each has gradient [0], no parents and the no-op closure. *)
Theorem mlp_construction (rng : nat → Q) (k nin : nat) (nouts : list nat) (h : heap) :
  ∃ m h', MLP.__init__ rng k nin nouts h = (Ret m, h') ∧
    h' = h ++ leaves (mlp_data rng k nin nouts) ∧
    shape_of (MLP.layers m) = layer_shapes nin nouts ∧
    MLP.parameters m = seq (length h) (count_parameters (nin :: nouts)) ∧
    map (data_at h') (MLP.parameters m) = mlp_data rng k nin nouts ∧
    ∀ p, p ∈ MLP.parameters m →
      is_leaf h' p ∧ grad_at h' p = 0%Q ∧ backward_at h' p = Noop.
Proof.
  destruct (init_layers_run rng nouts [] nin k h) as (ls & Hrun & Hshape & Hps).
  simpl in Hrun.
  exists (MLP.Mk ls), (h ++ leaves (mlp_data rng k nin nouts)).
  unfold MLP.__init__, bind. rewrite Hrun. unfold ret, MLP.parameters.
  cbn [MLP.layers]. rewrite Hps, <- (length_mlp_data rng nouts k nin).
  split; [done|]. split; [done|]. split; [done|]. split; [done|].
  split; [apply data_at_app_leaves|]. intros p. apply fresh_leaves.
Qed.


(** * The further properties at concrete graphs *)





(** X6 on [x = Value(2)]. *)
Lemma neg_gradient_witness :
  ∃ z h1 o h2,
    __neg__ 0 (leaves [2%Q]) = (Ret z, h1) ∧
    (data_at h1 z == -2)%Q ∧
    backward sorted_iter z h1 = (o, h2) ∧
    (grad_at h2 0 == -1)%Q.
Proof.
  destruct (neg_gradient sorted_iter sorted_iter_spec (leaves [2%Q]) 0
              (wf_leaves _))
    as (z & h1 & o & h2 & Hop & Hv & Hrun & _ & _ & Ha).
  - simpl. lia.
  - reflexivity.
  - exists z, h1, o, h2. split; [done|]. split; [by rewrite Hv|]. done.
Defined.


(** X8 on the graph [diamond], from [w = z + x] with [z = x * y]: the
    gradient of [x] is [w.grad * 1 + z.grad * y.value]. *)
Lemma backward_adjoint_witness :
  ∃ tp,
    topo_order sorted_iter 3 diamond = Some tp ∧
    (grad_at (snd (backward sorted_iter 3 diamond)) 0 ==
     grad_at diamond 0 +
     sumQ (λ v, grad_at (snd (backward sorted_iter 3 diamond)) v *
                local_weight diamond (backward_at diamond v) 0) tp)%Q.
Proof.
  destruct (backward_adjoint sorted_iter sorted_iter_spec diamond
              (snd (backward sorted_iter 3 diamond)) 3 wf_diamond)
    as (tp & Htp & Hg).
  - simpl. lia.
  - vm_compute. reflexivity.
  - exists tp. split; [done|]. exact (Hg 0).
Defined.

(** X9 on [x = Value(-2)] and on [x = Value(2)], with [x.grad] at 0. *)
Lemma relu_slope_witness :
  (∃ y h1 o h2,
     relu 0 (leaves [-2%Q]) = (Ret y, h1) ∧
     backward sorted_iter y h1 = (o, h2) ∧
     (data_at h1 y == 0)%Q ∧ (grad_at h2 0 == 0)%Q) ∧
  (∃ y h1 o h2,
     relu 0 (leaves [2%Q]) = (Ret y, h1) ∧
     backward sorted_iter y h1 = (o, h2) ∧
     (data_at h1 y == 2)%Q ∧ (grad_at h2 0 == 1)%Q).
Proof.
  split.
  - destruct (relu_slope sorted_iter sorted_iter_spec (leaves [-2%Q]) 0
                (wf_leaves _)) as (y & h1 & o & h2 & Hop & Hrun & Hle & _);
      [simpl; lia|].
    destruct Hle as [Hv Hg]; [discriminate|].
    exists y, h1, o, h2. split; [done|]. split; [done|].
    split; [done|]. by rewrite Hg.
  - destruct (relu_slope sorted_iter sorted_iter_spec (leaves [2%Q]) 0
                (wf_leaves _)) as (y & h1 & o & h2 & Hop & Hrun & _ & Hlt);
      [simpl; lia|].
    destruct Hlt as [Hv Hg]; [reflexivity|].
    exists y, h1, o, h2. split; [done|]. split; [done|].
    split; [by rewrite Hv|]. by rewrite Hg.
Defined.

(** X10 on [x = Value(0)]: [(x ** 0).backward()] raises. *)
Lemma pow_zero_exponent_aborts_witness :
  ∃ y h1 h2,
    __pow__ 0 (IntExp 0) (leaves [0%Q]) = (Ret y, h1) ∧ (data_at h1 y == 1)%Q ∧
    backward sorted_iter y h1 = (Raise ZeroDivisionError, h2) ∧
    grad_at h2 0 = 0%Q.
Proof.
  destruct (pow_zero_exponent_aborts sorted_iter sorted_iter_spec
              (leaves [0%Q]) 0 (wf_leaves _))
    as (y & h1 & Hop & Hv & Hrun).
  - simpl. lia.
  - reflexivity.
  - exists y, h1, (alter (with_grad 1) y h1).
    split; [done|]. split; [done|]. split; [done|].
    vm_compute in Hop. injection Hop as <- <-. reflexivity.
Defined.

(** X11 on [x = Value(2)]. *)
Lemma backward_from_leaf_witness :
  topo_order sorted_iter 0 (leaves [2%Q]) = Some [0] ∧
  backward sorted_iter 0 (leaves [2%Q]) =
    (Ret tt, alter (with_grad 1) 0 (leaves [2%Q])).
Proof.
  destruct (backward_from_leaf sorted_iter sorted_iter_spec (leaves [2%Q]) 0
              (wf_leaves _))
    as (Htp & Htr & _).
  - apply is_leaf_leaves. simpl. lia.
  - split; [done|]. unfold backward. by rewrite Htr.
Defined.



